(** * RoadGenerationDiscreteEnv: a shallow embedding of
      carl-sbst2022/road_generation_env_discrete.py

    The environment keeps a fixed-size array of control points, a step
    counter and its configuration.  Python integers (and the numpy int64
    entries of an action) are modelled by [Z]; Python floats by exact
    rationals [Q] in the transition function, with the conversion of an
    observation to numpy's float16 rounded as numpy does; the float
    computations whose value matters (the bound of the coordinates and
    the conversion of the road points) are also given in binary64,
    rounded after every operation, and related to the exact ones; a
    raised exception (a failed [assert], an [IndexError]) by [None]. *)

From Stdlib Require Import ZArith QArith Qround Qabs Qpower.
From Stdlib Require Import Lia Lqa Bool List.
From Stdlib Require Import Floats Uint63.
From stdpp Require Import base option list.

Local Open Scope Z_scope.

(** A statement that may raise: the rest runs on the value it returns. *)
Notation "'let?' x := m 'in' k" :=
  (match m with Some x => k | None => None end)
  (at level 10, x pattern, m at level 100, k at level 200).

(** ** numpy float16 *)

(** A value of IEEE 754 binary16 as numpy produces it from a real number:
    a finite value (kept as a reduced fraction, the sign of zero dropped)
    or an infinity. *)
Inductive float16 : Type :=
  | F16 (v : Q)
  | F16_inf (negative : bool).

(** The exponent [k] with [2^k <= q < 2^(k+1)], for [q > 0]. *)
Definition Qfloor_log2 (q : Q) : Z :=
  let k := Z.log2 (Qnum q) - Z.log2 (Z.pos (Qden q)) in
  if Qle_bool (Qpower 2 k) q then k else k - 1.

(** Rounding to the nearest integer, ties to the even one. *)
Definition round_half_even (q : Q) : Z :=
  let f := Qfloor q in
  match Qcompare (q - inject_Z f) (1 # 2) with
  | Lt => f
  | Gt => f + 1
  | Eq => if Z.even f then f else f + 1
  end.

(** [np.float16(q)]: eleven significant bits, exponent of the last bit at
    least -24, round to nearest even, overflow above 65504. *)
Definition float16_of_Q (q : Q) : float16 :=
  if Qeq_bool q 0 then F16 0 else
  let negative := Qle_bool q 0 in
  let a := Qabs q in
  let e := Z.max (-24) (Qfloor_log2 a - 10) in
  let m := round_half_even (a / Qpower 2 e) in
  let v := (inject_Z m * Qpower 2 e)%Q in
  if Qle_bool v 65504
  then F16 (Qred (if negative then - v else v))
  else F16_inf negative.

(** [np.array(obs, dtype=np.float16)] *)
Definition np_array_float16 (obs : list Q) : list float16 :=
  map float16_of_Q obs.

(** [np.asarray(q, dtype=np.int64)]: truncation towards zero. *)
Definition int64_of_Q (q : Q) : Z := Z.quot (Qnum q) (Z.pos (Qden q)).

(** ** The environment *)

(** A control point: a pair of discrete coordinates. *)
Abbreviation Point := (Z * Z)%type.

(** [(0,0)] represents absence of information in a cell. *)
Definition sentinel : Point := (0, 0).

Record Env : Type := mkEnv {
  max_steps : Z;
  grid_size : Z;
  max_number_of_points : nat;
  invalid_test_reward : Q;
  state : list Point;
  step_counter : Z
}.

Definition set_state (e : Env) (st : list Point) : Env :=
  mkEnv (max_steps e) (grid_size e) (max_number_of_points e)
        (invalid_test_reward e) st (step_counter e).

Definition set_step_counter (e : Env) (c : Z) : Env :=
  mkEnv (max_steps e) (grid_size e) (max_number_of_points e)
        (invalid_test_reward e) (state e) c.

Definition ADD_UPDATE : Z := 0.
Definition REMOVE : Z := 1.

Definition discretization_precision : Q := 10.

(** [self.grid_size / 20] *)
Definition map_buffer_area_width (e : Env) : Q := inject_Z (grid_size e) / 20.

(** [number_of_discrete_coords_in_map - 2*width_of_buffer_area], without
    the rounding of the floats: [number_of_discrete_coords_float64],
    below, has it, and gives the same bound for every grid size from 1
    to 10^14. *)
Definition number_of_discrete_coords (e : Env) : Q :=
  let number_of_discrete_coords_in_map :=
    (inject_Z (grid_size e) * discretization_precision)%Q in
  let width_of_buffer_area :=
    (map_buffer_area_width e * discretization_precision)%Q in
  (number_of_discrete_coords_in_map - 2 * width_of_buffer_area)%Q.

(** The [nvec] of [spaces.MultiDiscrete([2, max_number_of_points,
    number_of_discrete_coords, number_of_discrete_coords])], an int64
    array. *)
Definition action_nvec (e : Env) : Z * Z * Z * Z :=
  (2, Z.of_nat (max_number_of_points e),
   int64_of_Q (number_of_discrete_coords e),
   int64_of_Q (number_of_discrete_coords e)).

Record Action : Type := mkAction {
  action_type : Z;
  position : Z;
  x : Z;
  y : Z
}.

(** [self.action_space.contains(action)]: every entry is at least 0 and
    below its bound. *)
Definition action_space_contains (e : Env) (a : Action) : bool :=
  let '(n0, n1, n2, n3) := action_nvec e in
  (0 <=? action_type a) && (0 <=? position a) && (0 <=? x a) && (0 <=? y a)
  && (action_type a <? n0) && (position a <? n1)
  && (x a <? n2) && (y a <? n3).

(** [state[i] = p]; an index outside the array raises. *)
Definition setitem (st : list Point) (i : nat) (p : Point)
  : option (list Point) :=
  if decide (i < length st)%nat then Some (<[i := p]> st) else None.

(** The loop of [check_coordinates_already_exist] over the indices still
    to visit. *)
Fixpoint check_coordinates_from (st : list Point) (x y : Z)
    (indices : list nat) : option bool :=
  match indices with
  | [] => Some false
  | i :: rest =>
      let? p := st !! i in
      if (x =? p.1) && (y =? p.2) then Some true
      else check_coordinates_from st x y rest
  end.

Definition check_coordinates_already_exist (e : Env) (x y : Z)
  : option bool :=
  check_coordinates_from (state e) x y (seq 0 (max_number_of_points e)).

(** [(d + self.map_buffer_area_width) / self.discretization_precision],
    the conversion applied to each coordinate in [get_road_points],
    without the rounding of the floats; [to_continuous_float64], below,
    has it. *)
Definition to_continuous (e : Env) (d : Z) : Q :=
  (inject_Z d + map_buffer_area_width e) / discretization_precision.

(** The same expression in binary64, the arithmetic Python runs it in,
    for a grid size and a coordinate below 2^63. *)
Definition binary64_of_Z (z : Z) : float :=
  PrimFloat.of_uint63 (Uint63.of_Z z).

Definition to_continuous_binary64 (grid_size d : Z) : float :=
  ((binary64_of_Z d + binary64_of_Z grid_size / 20) / 10)%float.

(** The loop of [get_road_points]: [road_points] is the list built so
    far. *)
Fixpoint get_road_points_from (e : Env) (indices : list nat)
    (road_points : list (Q * Q)) : option (list (Q * Q)) :=
  match indices with
  | [] => Some road_points
  | i :: rest =>
      let? p := state e !! i in
      if negb (p.1 =? 0) && negb (p.2 =? 0)
      then get_road_points_from e rest
             (road_points ++ [(to_continuous e p.1, to_continuous e p.2)])
      else get_road_points_from e rest road_points
  end.

Definition get_road_points (e : Env) : option (list (Q * Q)) :=
  get_road_points_from e (seq 0 (max_number_of_points e)) [].

(** [[coordinate for tuple in self.state for coordinate in tuple]] *)
Definition get_state_observation (e : Env) : list Q :=
  concat (map (fun p : Point => [inject_Z p.1; inject_Z p.2]) (state e)).

(** [reset]: a new array of sentinels; nothing else of the environment is
    assigned.  Returns the environment and the observation. *)
Definition reset (e : Env) : Env * list float16 :=
  let e' := set_state e (replicate (max_number_of_points e) sentinel) in
  (e', np_array_float16 (get_state_observation e' ++ [0%Q])).

(** The result tuple of [step]: [(observation, reward, done, {})]. *)
Record StepResult : Type := mkStepResult {
  obs : list float16;
  reward : Q;
  done : bool
}.

(** Python's [a and b] where evaluating [b] may raise: [b] is only
    evaluated when [a] is true. *)
Definition and_then (a : bool) (b : option bool) : option bool :=
  if a then b else Some false.

Section Step.

(** The two methods [step] calls on the parent class RoadGenerationEnv
    (module road_generation_env).  They are taken as
    parameters that read the environment: [compute_step] hands the road
    points to the external road evaluator and returns
    [(reward, max_oob)]; [check_some_coordinates_exist_at_position]
    tells whether a slot holds a point. *)
Variable compute_step : Env -> Q * Q.
Variable check_some_coordinates_exist_at_position : Env -> Z -> bool.

(** The if/elif chain of [step], run after the counter was incremented:
    the environment after the mutation, [reward] and [max_oob].  When no
    branch is taken [reward] is unbound and the method raises. *)
Definition apply_action (e : Env) (a : Action) : option (Env * Q * Q) :=
  let action_type := action_type a in
  let position := position a in
  let x := x a in
  let y := y a in
  let? b1 := and_then (action_type =? ADD_UPDATE)
               (negb <$> check_coordinates_already_exist e x y) in
  if b1 then
    let? st := setitem (state e) (Z.to_nat position) (x, y) in
    let e' := set_state e st in
    let '(reward, max_oob) := compute_step e' in
    Some (e', reward, max_oob)
  else
  let? b2 := and_then (action_type =? ADD_UPDATE)
               (check_coordinates_already_exist e x y) in
  if b2 then Some (e, invalid_test_reward e, 0%Q)
  else if (action_type =? REMOVE)
          && check_some_coordinates_exist_at_position e position then
    let? st := setitem (state e) (Z.to_nat position) (0, 0) in
    let e' := set_state e st in
    let '(reward, max_oob) := compute_step e' in
    Some (e', reward, max_oob)
  else if (action_type =? REMOVE)
          && negb (check_some_coordinates_exist_at_position e position) then
    Some (e, invalid_test_reward e, 0%Q)
  else None.

Definition step (e : Env) (a : Action) : option (Env * StepResult) :=
  if negb (action_space_contains e a) then None else
  let e := set_step_counter e (step_counter e + 1) in
  let? (e', reward, max_oob) := apply_action e a in
  let done := step_counter e' =? max_steps e' in
  let obs := get_state_observation e' ++ [max_oob] in
  Some (e', mkStepResult (np_array_float16 obs) reward done).

(** A sequence of [step] calls, with the results in call order. *)
Fixpoint run (e : Env) (actions : list Action)
  : option (Env * list StepResult) :=
  match actions with
  | [] => Some (e, [])
  | a :: rest =>
      let? (e', r) := step e a in
      let? (e'', rs) := run e' rest in
      Some (e'', r :: rs)
  end.

End Step.

(** Modelled from the spec: the constructor of the parent class
    RoadGenerationEnv is missing; it stores the configuration, and the
    episode's [step_counter] starts at 0.  The array of sentinels is the
    one built by [__init__] of this class. *)
Definition init (max_steps grid_size : Z) (max_number_of_points : nat)
    (invalid_test_reward : Q) : Env :=
  mkEnv max_steps grid_size max_number_of_points invalid_test_reward
        (replicate max_number_of_points sentinel) 0.

(** Modelled from the spec: [is_present(slot)] is true iff the slot's
    coordinates are not the sentinel; stands for the parent's missing
    [check_some_coordinates_exist_at_position]. *)
Definition is_present (e : Env) (position : Z) : bool :=
  match state e !! Z.to_nat position with
  | Some p => negb ((p.1 =? 0) && (p.2 =? 0))
  | None => false
  end.

(** A stand-in for the parent's [compute_step] with a mock evaluator:
    the reward is the number of road points, the out-of-bounds metric 0. *)
Definition mock_compute_step (e : Env) : Q * Q :=
  match get_road_points e with
  | Some pts => (inject_Z (Z.of_nat (length pts)), 0%Q)
  | None => (0%Q, 0%Q)
  end.

(** The environment as a [step] call leaves it: the counter advanced by
    one and the array [st]. *)
Definition after (e : Env) (st : list Point) : Env :=
  set_state (set_step_counter e (step_counter e + 1)) st.

(** The tuple a [step] call returns from the environment it leaves,
    [reward] and [max_oob]. *)
Definition result (e' : Env) (reward max_oob : Q) : StepResult :=
  mkStepResult (np_array_float16 (get_state_observation e' ++ [max_oob]))
               reward (step_counter e' =? max_steps e').

(** Modelled from the spec: [snapshot()], the present pairs in slot
    order, each converted to continuous space, a slot being present iff
    its coordinates are not the sentinel.  To be compared with
    [get_road_points]. *)
Definition snapshot (e : Env) : list (Q * Q) :=
  map (λ p : Point, (to_continuous e p.1, to_continuous e p.2))
      (filter (λ p : Point, p ≠ sentinel) (state e)).

(** Distinct addressable coordinates have distinct entries in the
    observation. *)
Definition observation_encoding_injective (e : Env) : Prop :=
  ∀ a b : Z,
    0 ≤ a < int64_of_Q (number_of_discrete_coords e) →
    0 ≤ b < int64_of_Q (number_of_discrete_coords e) →
    a ≠ b →
    float16_of_Q (inject_Z a) ≠ float16_of_Q (inject_Z b).

(** The class invariant: the array has one cell per point. *)
Definition wf (e : Env) : Prop := length (state e) = max_number_of_points e.

(** No two cells that differ from the sentinel hold the same pair. *)
Definition unique_present (st : list Point) : Prop :=
  ∀ (i j : nat) (p : Point),
    i ≠ j → st !! i = Some p → st !! j = Some p → p = sentinel.


(** The [nvec] of the observation space built by [__init__]: one entry
    per coordinate of each point, then [discretized_oob_size]. *)
Definition observation_nvec (e : Env) : list Z :=
  let discretized_oob_size := (100 * discretization_precision)%Q in
  let dimensions_list :=
    replicate (2 * max_number_of_points e)
              (int64_of_Q (number_of_discrete_coords e)) in
  dimensions_list ++ [int64_of_Q discretized_oob_size].

(** Every cell is empty or holds coordinates of the action space. *)
Definition cells_in_bounds (e : Env) : Prop :=
  ∀ p : Point, p ∈ state e →
    p = sentinel
    ∨ (0 ≤ p.1 < 9 * grid_size e ∧ 0 ≤ p.2 < 9 * grid_size e).

(** The configuration set at construction. *)
Definition same_configuration (e e' : Env) : Prop :=
  max_steps e' = max_steps e
  ∧ grid_size e' = grid_size e
  ∧ max_number_of_points e' = max_number_of_points e
  ∧ invalid_test_reward e' = invalid_test_reward e.

(** ** Python floats (binary64), operation by operation

    The definitions above carry the float computations of the code as
    exact rationals.  The ones below round after every operation, as the
    code does: they are the ones to use where the value of a float
    matters. *)

(** A value of IEEE 754 binary64: a finite value (kept as a reduced
    fraction, the sign of zero dropped), an infinity, or not-a-number. *)
Inductive float64 : Type :=
  | F64 (v : Q)
  | F64_inf (negative : bool)
  | F64_nan.

(** Round-to-nearest-even of a positive rational to 53 significant bits,
    the exponent of the last bit at least -1074. *)
Definition float64_round (a : Q) : Q :=
  let e := Z.max (-1074) (Qfloor_log2 a - 52) in
  (inject_Z (round_half_even (a / Qpower 2 e)) * Qpower 2 e)%Q.

Definition float64_max : Q := inject_Z ((2 ^ 53 - 1) * 2 ^ 971).

(** The float nearest to a rational: the result of a correctly rounded
    operation whose exact result is [q]. *)
Definition float64_of_Q (q : Q) : float64 :=
  if Qeq_bool q 0 then F64 0 else
  let negative := Qle_bool q 0 in
  let v := float64_round (Qabs q) in
  if Qle_bool v float64_max
  then F64 (Qred (if negative then - v else v))
  else F64_inf negative.

(** [float(z)], the conversion of an integer operand. *)
Definition float64_of_Z (z : Z) : float64 := float64_of_Q (inject_Z z).

Definition float64_neg (a : float64) : float64 :=
  match a with
  | F64 v => F64 (Qred (- v))
  | F64_inf s => F64_inf (negb s)
  | F64_nan => F64_nan
  end.

Definition float64_add (a b : float64) : float64 :=
  match a, b with
  | F64 x, F64 y => float64_of_Q (x + y)
  | F64_nan, _ | _, F64_nan => F64_nan
  | F64_inf s, F64 _ | F64 _, F64_inf s => F64_inf s
  | F64_inf s, F64_inf t => if Bool.eqb s t then F64_inf s else F64_nan
  end.

(** [a * n] and [a / n] for an integer operand [n] (the code's 10 and 2,
    which are floats exactly). *)
Definition float64_mul_Z (a : float64) (n : Z) : float64 :=
  match a with
  | F64 v => float64_of_Q (v * inject_Z n)
  | F64_inf s => if n =? 0 then F64_nan else F64_inf (xorb s (n <? 0))
  | F64_nan => F64_nan
  end.

Definition float64_div_Z (a : float64) (n : Z) : float64 :=
  match a with
  | F64 v =>
      if n =? 0
      then (if Qeq_bool v 0 then F64_nan else F64_inf (Qle_bool v 0))
      else float64_of_Q (v / inject_Z n)
  | F64_inf s => F64_inf (xorb s (n <? 0))
  | F64_nan => F64_nan
  end.

(** [a == b] on floats. *)
Definition float64_eqb (a b : float64) : bool :=
  match a, b with
  | F64 x, F64 y => Qeq_bool x y
  | F64_inf s, F64_inf t => Bool.eqb s t
  | _, _ => false
  end.

(** [self.grid_size / 20]: the quotient of two integers, rounded once. *)
Definition map_buffer_area_width_float64 (grid_size : Z) : float64 :=
  float64_of_Q (inject_Z grid_size / 20).

(** [number_of_discrete_coords_in_map - 2*width_of_buffer_area]: an
    integer minus a float. *)
Definition number_of_discrete_coords_float64 (grid_size : Z) : float64 :=
  let number_of_discrete_coords_in_map := grid_size * 10 in
  let width_of_buffer_area :=
    float64_mul_Z (map_buffer_area_width_float64 grid_size) 10 in
  float64_add (float64_of_Z number_of_discrete_coords_in_map)
              (float64_neg (float64_mul_Z width_of_buffer_area 2)).

(** The entry of [nvec] for a coordinate: the float truncated to int64;
    nothing when the float is not finite. *)
Definition coordinate_bound_float64 (grid_size : Z) : option Z :=
  match number_of_discrete_coords_float64 grid_size with
  | F64 v => Some (int64_of_Q v)
  | _ => None
  end.

(** [(d + self.map_buffer_area_width) / self.discretization_precision]
    for an int64 [d]: a conversion, an addition and a division, each
    rounded. *)
Definition to_continuous_float64 (grid_size d : Z) : float64 :=
  float64_div_Z
    (float64_add (float64_of_Z d) (map_buffer_area_width_float64 grid_size))
    10.

(** The loop of [get_road_points] with its floats. *)
Fixpoint get_road_points_float64_from (e : Env) (indices : list nat)
    (road_points : list (float64 * float64))
  : option (list (float64 * float64)) :=
  match indices with
  | [] => Some road_points
  | i :: rest =>
      let? p := state e !! i in
      if negb (p.1 =? 0) && negb (p.2 =? 0)
      then get_road_points_float64_from e rest
             (road_points
              ++ [(to_continuous_float64 (grid_size e) p.1,
                   to_continuous_float64 (grid_size e) p.2)])
      else get_road_points_float64_from e rest road_points
  end.

Definition get_road_points_float64 (e : Env)
  : option (list (float64 * float64)) :=
  get_road_points_float64_from e (seq 0 (max_number_of_points e)) [].

(** The three rounded quantities of the conversion, as rationals. *)
Definition width_Q (g : Z) : Q := float64_round (inject_Z g / 20).
Definition sum_Q (g d : Z) : Q := float64_round (inject_Z d + width_Q g).
Definition to_continuous_Q (g d : Z) : Q := float64_round (sum_Q g d / 10).

(** The value of a hardware binary64 number, to compare the definitions
    above with the floats of the machine. *)
Definition Q_of_binary64 (f : float) : option Q :=
  match Prim2SF f with
  | S754_zero _ => Some 0%Q
  | S754_finite s m e =>
      let v := (inject_Z (Z.pos m) * Qpower 2 e)%Q in
      Some (Qred (if s then - v else v))
  | _ => None
  end.

Definition number_of_discrete_coords_binary64 (grid_size : Z) : float :=
  (binary64_of_Z (grid_size * 10)
   - 2 * ((binary64_of_Z grid_size / 20) * 10))%float.

Definition float64_agrees (a : float64) (f : float) : bool :=
  match a, Q_of_binary64 f with
  | F64 v, Some w => Z.eqb (Qnum v) (Qnum w) && Pos.eqb (Qden v) (Qden w)
  | _, _ => false
  end.

(** The reading of C9: over the coordinates below the bound of the action
    space, the conversion of [get_road_points] is strictly increasing. *)
Definition conversion_strictly_increasing (e : Env) : Prop :=
  ∀ (b d1 d2 : Z),
    coordinate_bound_float64 (grid_size e) = Some b →
    0 ≤ d1 → d1 < d2 → d2 < b →
    ∃ v1 v2,
      to_continuous_float64 (grid_size e) d1 = F64 v1
      ∧ to_continuous_float64 (grid_size e) d2 = F64 v2
      ∧ (v1 < v2)%Q.

(** ** Basic facts *)

Lemma contains_bounds e a :
  action_space_contains e a = true →
  (action_type a = ADD_UPDATE ∨ action_type a = REMOVE)
  ∧ 0 ≤ position a < Z.of_nat (max_number_of_points e)
  ∧ 0 ≤ x a < int64_of_Q (number_of_discrete_coords e)
  ∧ 0 ≤ y a < int64_of_Q (number_of_discrete_coords e).
Proof.
  unfold action_space_contains, action_nvec, ADD_UPDATE, REMOVE.
  rewrite !andb_true_iff, !Z.leb_le, !Z.ltb_lt. lia.
Qed.

Lemma contains_position e a :
  wf e → action_space_contains e a = true →
  (Z.to_nat (position a) < length (state e))%nat.
Proof.
  intros Hwf Hc. apply contains_bounds in Hc. rewrite Hwf. lia.
Qed.

Lemma wf_set_step_counter e c : wf e → wf (set_step_counter e c).
Proof. done. Qed.

Lemma wf_init ms gs n r : wf (init ms gs n r).
Proof. unfold wf, init; simpl. apply length_replicate. Qed.

Lemma wf_reset e : wf (reset e).1.
Proof. unfold wf, reset; simpl. apply length_replicate. Qed.

Lemma setitem_in_range (st : list Point) i p :
  (i < length st)%nat → setitem st i p = Some (<[i := p]> st).
Proof. intros H. unfold setitem. by rewrite decide_True. Qed.

(** The scan answers, and answers [True] exactly when some visited cell
    holds the pair. *)
Lemma check_coordinates_from_spec (st : list Point) x y indices :
  Forall (λ i, (i < length st)%nat) indices →
  ∃ b, check_coordinates_from st x y indices = Some b
       ∧ (b = true ↔ ∃ i, i ∈ indices ∧ st !! i = Some (x, y)).
Proof.
  induction 1 as [|i rest Hi _ IH]; cbn [check_coordinates_from].
  - exists false. split; [done|]. split; [done|].
    intros (i & Hin & _). by apply not_elem_of_nil in Hin.
  - destruct (lookup_lt_is_Some_2 st i Hi) as [[px py] Hp]. rewrite Hp. cbn [fst snd].
    destruct ((x =? px) && (y =? py)) eqn:E.
    + exists true. split; [done|]. split; [|done]. intros _.
      apply andb_true_iff in E as [->%Z.eqb_eq ->%Z.eqb_eq].
      exists i. split; [left|done].
    + destruct IH as (b & -> & Hb). exists b. split; [done|].
      rewrite Hb. split.
      * intros (j & Hj & Hl). exists j. split; [by right|done].
      * intros (j & Hj & Hl). apply elem_of_cons in Hj as [->|Hj].
        -- rewrite Hp in Hl. injection Hl as -> ->.
           by rewrite !Z.eqb_refl in E.
        -- by exists j.
Qed.

Lemma check_coordinates_already_exist_spec e x y :
  wf e →
  ∃ b, check_coordinates_already_exist e x y = Some b
       ∧ (b = true ↔ (x, y) ∈ state e).
Proof.
  intros Hwf. unfold check_coordinates_already_exist.
  destruct (check_coordinates_from_spec (state e) x y
              (seq 0 (max_number_of_points e))) as (b & Hb & Hiff).
  { apply Forall_forall. intros i Hi%elem_of_seq. rewrite Hwf. lia. }
  exists b. split; [done|]. rewrite Hiff, list_elem_of_lookup. split.
  - intros (i & _ & Hl). by exists i.
  - intros (i & Hl). exists i. split; [|done].
    apply elem_of_seq. apply lookup_lt_Some in Hl. rewrite Hwf in Hl. lia.
Qed.

(** ** The four branches of [step] *)

Section StepFacts.

Variable compute_step : Env → Q * Q.
Variable check_some : Env → Z → bool.

Lemma step_unfold e a :
  action_space_contains e a = true →
  step compute_step check_some e a =
    let? (e', reward, max_oob) :=
      apply_action compute_step check_some (set_step_counter e (step_counter e + 1)) a
    in Some (e', result e' reward max_oob).
Proof. intros Hc. unfold step. by rewrite Hc. Qed.

Lemma step_add_fresh e a :
  wf e → action_space_contains e a = true →
  action_type a = ADD_UPDATE → (x a, y a) ∉ state e →
  let e' := after e (<[Z.to_nat (position a) := (x a, y a)]> (state e)) in
  step compute_step check_some e a = Some (e', result e' (compute_step e').1 (compute_step e').2).
Proof.
  intros Hwf Hc Ht Hfresh e'. rewrite step_unfold by done.
  unfold apply_action. rewrite Ht. cbn [Z.eqb ADD_UPDATE and_then].
  set (e1 := set_step_counter e (step_counter e + 1)).
  destruct (check_coordinates_already_exist_spec e1 (x a) (y a))
    as (b & -> & Hb); [done|].
  destruct b; [exfalso; apply Hfresh; by apply (proj1 Hb)|]. cbn [fmap option_fmap option_map negb].
  change (state e1) with (state e).
  rewrite setitem_in_range by by apply contains_position.
  subst e' e1.
  change (set_state (set_step_counter e _) ?st) with (after e st).
  by destruct (compute_step _).
Qed.

Lemma step_add_duplicate e a :
  wf e → action_space_contains e a = true →
  action_type a = ADD_UPDATE → (x a, y a) ∈ state e →
  let e' := after e (state e) in
  step compute_step check_some e a = Some (e', result e' (invalid_test_reward e) 0%Q).
Proof.
  intros Hwf Hc Ht Hdup e'. rewrite step_unfold by done.
  unfold apply_action. rewrite Ht. cbn [Z.eqb ADD_UPDATE and_then].
  set (e1 := set_step_counter e (step_counter e + 1)).
  destruct (check_coordinates_already_exist_spec e1 (x a) (y a))
    as (b & -> & Hb); [done|].
  destruct b; [done|]. by apply (proj2 Hb) in Hdup.
Qed.

Lemma step_remove_present e a :
  wf e → action_space_contains e a = true →
  action_type a = REMOVE →
  check_some (after e (state e)) (position a) = true →
  let e' := after e (<[Z.to_nat (position a) := (0, 0)]> (state e)) in
  step compute_step check_some e a = Some (e', result e' (compute_step e').1 (compute_step e').2).
Proof.
  intros Hwf Hc Ht Hp e'. rewrite step_unfold by done.
  unfold apply_action. rewrite Ht. cbn [Z.eqb REMOVE ADD_UPDATE and_then].
  change (set_step_counter e (step_counter e + 1)) with (after e (state e)).
  rewrite Hp. cbn [andb]. change (state (after e (state e))) with (state e).
  rewrite setitem_in_range by by apply contains_position.
  change (set_state (after e (state e)) ?st) with (after e st).
  subst e'. by destruct (compute_step _).
Qed.

Lemma step_remove_absent e a :
  wf e → action_space_contains e a = true →
  action_type a = REMOVE →
  check_some (after e (state e)) (position a) = false →
  let e' := after e (state e) in
  step compute_step check_some e a = Some (e', result e' (invalid_test_reward e) 0%Q).
Proof.
  intros Hwf Hc Ht Hp e'. rewrite step_unfold by done.
  unfold apply_action. rewrite Ht. cbn [Z.eqb REMOVE ADD_UPDATE and_then].
  change (set_step_counter e (step_counter e + 1)) with (after e (state e)).
  by rewrite Hp.
Qed.

End StepFacts.

(** ** What one call does to the array *)

Section Transition.

Variable compute_step : Env → Q * Q.
Variable check_some : Env → Z → bool.

(** Every in-bounds call on a well-formed environment returns, and the
    array it leaves is the old one, or the old one with the cell at
    [position] overwritten. *)
Lemma step_cases e a :
  wf e → action_space_contains e a = true →
  ∃ st' rw oob,
    step compute_step check_some e a
      = Some (after e st', result (after e st') rw oob)
    ∧ ((action_type a = ADD_UPDATE ∧ ((x a, y a) ∉ state e)
        ∧ st' = (<[Z.to_nat (position a) := (x a, y a)]> (state e))
        ∧ (rw, oob) = compute_step (after e st'))
       ∨ (action_type a = ADD_UPDATE ∧ (x a, y a) ∈ state e
          ∧ st' = state e ∧ rw = invalid_test_reward e ∧ oob = 0%Q)
       ∨ (action_type a = REMOVE
          ∧ check_some (after e (state e)) (position a) = true
          ∧ st' = (<[Z.to_nat (position a) := (0, 0)]> (state e))
          ∧ (rw, oob) = compute_step (after e st'))
       ∨ (action_type a = REMOVE
          ∧ check_some (after e (state e)) (position a) = false
          ∧ st' = state e ∧ rw = invalid_test_reward e ∧ oob = 0%Q)).
Proof.
  intros Hwf Hc.
  destruct (contains_bounds e a Hc) as ([Ht|Ht] & _).
  - destruct (decide ((x a, y a) ∈ state e)) as [Hin|Hout].
    + eexists _, _, _. split; [by apply step_add_duplicate|]. tauto.
    + eexists _, _, _. split; [by apply step_add_fresh|].
      left. repeat split; try done. by destruct (compute_step _).
  - destruct (check_some (after e (state e)) (position a)) eqn:Hp.
    + eexists _, _, _. split; [by apply step_remove_present|].
      right; right; left. repeat split; try done.
      by destruct (compute_step _).
    + eexists _, _, _. split; [by apply step_remove_absent|]. tauto.
Qed.

Lemma wf_after e st : length st = length (state e) → wf e → wf (after e st).
Proof. unfold wf. simpl. congruence. Qed.

Lemma contains_after e st a :
  action_space_contains (after e st) a = action_space_contains e a.
Proof. done. Qed.

Lemma step_wf e a e' r :
  wf e → action_space_contains e a = true →
  step compute_step check_some e a = Some (e', r) →
  wf e' ∧ ∀ b, action_space_contains e' b = action_space_contains e b.
Proof.
  intros Hwf Hc Hs.
  destruct (step_cases e a Hwf Hc) as (st' & rw & oob & Hs' & Hcase).
  rewrite Hs in Hs'. injection Hs' as -> _. split; [|done].
  apply wf_after; [|done].
  destruct Hcase as [(_&_&->&_)|[(_&_&->&_)|[(_&_&->&_)|(_&_&->&_)]]];
    by rewrite ?length_insert.
Qed.

(** *** Uniqueness among the cells that differ from the sentinel *)

Lemma unique_present_replicate n : unique_present (replicate n sentinel).
Proof. intros i j p _ [-> _]%lookup_replicate _. done. Qed.

Lemma unique_present_insert_fresh st k p :
  p ∉ st → unique_present st → unique_present (<[k := p]> st).
Proof.
  intros Hfresh Hu i j q Hij Hi Hj.
  apply list_lookup_insert_Some in Hi, Hj.
  destruct Hi as [(-> & -> & _)|(Hki & Hi)],
           Hj as [(-> & Hq & _)|(Hkj & Hj)]; try done.
  - destruct Hfresh. apply list_elem_of_lookup. by exists j.
  - subst q. destruct Hfresh. apply list_elem_of_lookup. by exists i.
  - by apply (Hu i j).
Qed.

Lemma unique_present_insert_sentinel st k :
  unique_present st → unique_present (<[k := sentinel]> st).
Proof.
  intros Hu i j q Hij Hi Hj.
  apply list_lookup_insert_Some in Hi, Hj.
  destruct Hi as [(_ & <- & _)|(Hki & Hi)]; [done|].
  destruct Hj as [(_ & <- & _)|(Hkj & Hj)]; [done|].
  by apply (Hu i j).
Qed.

Lemma step_unique_present e a e' r :
  wf e → action_space_contains e a = true →
  unique_present (state e) →
  step compute_step check_some e a = Some (e', r) →
  unique_present (state e').
Proof.
  intros Hwf Hc Hu Hs.
  destruct (step_cases e a Hwf Hc) as (st' & rw & oob & Hs' & Hcase).
  rewrite Hs in Hs'. injection Hs' as -> _. simpl.
  destruct Hcase as [(_&?&->&_)|[(_&_&->&_)|[(_&_&->&_)|(_&_&->&_)]]];
    try done.
  - by apply unique_present_insert_fresh.
  - by apply unique_present_insert_sentinel.
Qed.

(** A sequence of in-bounds calls runs to its end, one result per call,
    and keeps the class invariant and the uniqueness of the points. *)
Lemma run_invariant actions : ∀ e,
  wf e → unique_present (state e) →
  Forall (λ a, action_space_contains e a = true) actions →
  ∃ e' rs, run compute_step check_some e actions = Some (e', rs)
           ∧ wf e' ∧ unique_present (state e')
           ∧ length rs = length actions.
Proof.
  induction actions as [|a rest IH]; intros e Hwf Hu Hall.
  - by exists e, [].
  - apply Forall_cons in Hall as [Hc Hall].
    destruct (step_cases e a Hwf Hc) as (st' & rw & oob & Hs & _).
    destruct (step_wf _ _ _ _ Hwf Hc Hs) as [Hwf' Hsame].
    pose proof (step_unique_present _ _ _ _ Hwf Hc Hu Hs) as Hu'.
    destruct (IH (after e st') Hwf' Hu') as (e'' & rs & Hr & ? & ? & Hlen).
    { eapply Forall_impl; [exact Hall|]. intros b Hb. by rewrite Hsame. }
    exists e'', (result (after e st') rw oob :: rs).
    cbn [run]. rewrite Hs, Hr. simpl. by rewrite Hlen.
Qed.

End Transition.

(** ** The frame of a call *)

(** C10: for every in-bounds action a single [step] call changes at most
    the cell named by the action's position; every other cell holds the
    same pair after the call as before it (and the array keeps its
    length). *)
Theorem step_changes_only_position
    (compute_step : Env → Q * Q) (check_some : Env → Z → bool) e a :
  wf e → action_space_contains e a = true →
  ∃ e' r,
    step compute_step check_some e a = Some (e', r)
    ∧ length (state e') = length (state e)
    ∧ ∀ i, i ≠ Z.to_nat (position a) → state e' !! i = state e !! i.
Proof.
  intros Hwf Hc.
  destruct (step_cases compute_step check_some e a Hwf Hc)
    as (st' & rw & oob & Hs & Hcase).
  exists (after e st'), (result (after e st') rw oob).
  split; [done|]. simpl.
  destruct Hcase as [(_&_&->&_)|[(_&_&->&_)|[(_&_&->&_)|(_&_&->&_)]]];
    rewrite ?length_insert; (split; [done|]); intros i Hi;
    by rewrite ?list_lookup_insert_ne.
Qed.

Lemma step_changes_only_position_witness :
  wf (init 1000 200 5 (-10))
  ∧ action_space_contains (init 1000 200 5 (-10)) (mkAction 0 1 5 5) = true
  ∧ ∃ e' r,
      step mock_compute_step is_present (init 1000 200 5 (-10))
           (mkAction 0 1 5 5) = Some (e', r)
      ∧ length (state e') = length (state (init 1000 200 5 (-10)))
      ∧ ∀ i, i ≠ Z.to_nat (position (mkAction 0 1 5 5)) →
             state e' !! i = state (init 1000 200 5 (-10)) !! i.
Proof.
  split; [reflexivity|]. split; [reflexivity|].
  apply (step_changes_only_position mock_compute_step is_present
           (init 1000 200 5 (-10)) (mkAction 0 1 5 5));
    reflexivity.
Defined.

(** ** Uniqueness of the points *)

(** C6: starting from the all-sentinel array, every sequence of in-bounds
    [step] calls runs to its end, and in the array it leaves no two cells
    whose pair differs from the sentinel (0,0) hold equal pairs. *)
Theorem present_points_stay_unique
    (compute_step : Env → Q * Q) (check_some : Env → Z → bool) e actions :
  state e = replicate (max_number_of_points e) sentinel →
  Forall (λ a, action_space_contains e a = true) actions →
  ∃ e' rs,
    run compute_step check_some e actions = Some (e', rs)
    ∧ ∀ (i j : nat) (p : Point),
        i ≠ j → state e' !! i = Some p → state e' !! j = Some p →
        p = sentinel.
Proof.
  intros Hst Hall.
  destruct (run_invariant compute_step check_some actions e)
    as (e' & rs & Hr & _ & Hu & _); [| |done|by exists e', rs].
  - unfold wf. rewrite Hst. apply length_replicate.
  - rewrite Hst. apply unique_present_replicate.
Qed.

Lemma present_points_stay_unique_witness :
  state (init 1000 200 3 (-10))
    = replicate (max_number_of_points (init 1000 200 3 (-10))) sentinel
  ∧ Forall (λ a, action_space_contains (init 1000 200 3 (-10)) a = true)
      [mkAction 0 0 5 5; mkAction 0 1 5 5; mkAction 0 1 7 5; mkAction 1 0 0 0]
  ∧ ∃ e' rs,
      run mock_compute_step is_present (init 1000 200 3 (-10))
        [mkAction 0 0 5 5; mkAction 0 1 5 5; mkAction 0 1 7 5;
         mkAction 1 0 0 0] = Some (e', rs)
      ∧ ∀ (i j : nat) (p : Point),
          i ≠ j → state e' !! i = Some p → state e' !! j = Some p →
          p = sentinel.
Proof.
  assert (Hall : Forall
            (λ a, action_space_contains (init 1000 200 3 (-10)) a = true)
            [mkAction 0 0 5 5; mkAction 0 1 5 5; mkAction 0 1 7 5;
             mkAction 1 0 0 0]).
  { repeat constructor. }
  split; [reflexivity|]. split; [exact Hall|].
  apply (present_points_stay_unique mock_compute_step is_present
           (init 1000 200 3 (-10)) _ eq_refl Hall).
Defined.

(** ** Rejected actions *)

(** C5: an in-bounds action that is rejected, that is an ADD_UPDATE of a
    pair some cell already holds, or a REMOVE at a cell holding the
    sentinel, returns exactly [invalid_test_reward] as reward, has
    [max_oob] equal to 0.0 (the last entry of the observation is its
    float16), and leaves the array as it was.  The parent's test used by
    REMOVE is only assumed to answer "no point" on a sentinel cell. *)
Theorem rejected_action_penalty
    (compute_step : Env → Q * Q) (check_some : Env → Z → bool) e a :
  wf e → action_space_contains e a = true →
  (∀ e0 p, state e0 !! Z.to_nat p = Some sentinel → check_some e0 p = false) →
  (action_type a = ADD_UPDATE ∧ (x a, y a) ∈ state e)
  ∨ (action_type a = REMOVE
     ∧ state e !! Z.to_nat (position a) = Some sentinel) →
  ∃ e' r,
    step compute_step check_some e a = Some (e', r)
    ∧ reward r = invalid_test_reward e
    ∧ r = result e' (invalid_test_reward e) 0%Q
    ∧ last (obs r) = Some (F16 0)
    ∧ state e' = state e.
Proof.
  intros Hwf Hc Hsent Hrej.
  exists (after e (state e)),
         (result (after e (state e)) (invalid_test_reward e) 0%Q).
  split; [|repeat split].
  - destruct Hrej as [[Ht Hdup]|[Ht Hempty]].
    + by apply step_add_duplicate.
    + apply step_remove_absent; try done. by apply Hsent.
  - unfold result. cbn [obs]. unfold np_array_float16.
    rewrite map_app. cbn [map]. by rewrite last_snoc.
Qed.

Lemma rejected_action_penalty_witness :
  wf (init 1000 200 5 (-10))
  ∧ action_space_contains (init 1000 200 5 (-10)) (mkAction 1 2 7 9) = true
  ∧ ∃ e' r,
      step mock_compute_step is_present (init 1000 200 5 (-10))
           (mkAction 1 2 7 9) = Some (e', r)
      ∧ reward r = invalid_test_reward (init 1000 200 5 (-10))
      ∧ r = result e' (invalid_test_reward (init 1000 200 5 (-10))) 0%Q
      ∧ last (obs r) = Some (F16 0)
      ∧ state e' = state (init 1000 200 5 (-10)).
Proof.
  split; [reflexivity|]. split; [reflexivity|].
  apply (rejected_action_penalty mock_compute_step is_present
           (init 1000 200 5 (-10)) (mkAction 1 2 7 9)).
  - reflexivity.
  - reflexivity.
  - intros e0 p Hp. unfold is_present. rewrite Hp. reflexivity.
  - right. split; reflexivity.
Defined.

(** C8: an ADD_UPDATE aimed at a cell with the very pair that cell holds
    is rejected as a duplicate: the scan visits the target cell too.  The
    call returns [invalid_test_reward] and leaves the array as it was
    (whether or not the pair is the sentinel). *)
Theorem add_update_same_cell_same_pair_rejected
    (compute_step : Env → Q * Q) (check_some : Env → Z → bool) e a :
  wf e → action_space_contains e a = true →
  action_type a = ADD_UPDATE →
  state e !! Z.to_nat (position a) = Some (x a, y a) →
  ∃ e' r,
    step compute_step check_some e a = Some (e', r)
    ∧ check_coordinates_already_exist e (x a) (y a) = Some true
    ∧ reward r = invalid_test_reward e
    ∧ state e' = state e.
Proof.
  intros Hwf Hc Ht Hcell.
  assert (Hin : (x a, y a) ∈ state e).
  { apply list_elem_of_lookup. by eexists. }
  eexists _, _. split; [by apply step_add_duplicate|].
  split; [|done].
  destruct (check_coordinates_already_exist_spec e (x a) (y a) Hwf)
    as (b & -> & Hb).
  f_equal. by apply Hb.
Qed.

Lemma add_update_same_cell_same_pair_rejected_witness :
  let e := mkEnv 1000 200 3 (-10) [(0, 0); (5, 7); (0, 0)] 1 in
  wf e
  ∧ action_space_contains e (mkAction 0 1 5 7) = true
  ∧ ∃ e' r,
      step mock_compute_step is_present e (mkAction 0 1 5 7) = Some (e', r)
      ∧ check_coordinates_already_exist e 5 7 = Some true
      ∧ reward r = invalid_test_reward e
      ∧ state e' = state e.
Proof.
  intros e. split; [reflexivity|]. split; [reflexivity|].
  apply (add_update_same_cell_same_pair_rejected mock_compute_step
           is_present e (mkAction 0 1 5 7)); reflexivity.
Defined.

(** ** Accepted ADD_UPDATE actions *)




(** ** The step counter and termination *)

Section Termination.

Variable compute_step : Env → Q * Q.
Variable check_some : Env → Z → bool.

Lemma step_counter_done e a :
  wf e → action_space_contains e a = true →
  ∃ e' r,
    step compute_step check_some e a = Some (e', r)
    ∧ step_counter e' = step_counter e + 1
    ∧ max_steps e' = max_steps e
    ∧ done r = (step_counter e + 1 =? max_steps e).
Proof.
  intros Hwf Hc.
  destruct (step_cases compute_step check_some e a Hwf Hc)
    as (st' & rw & oob & Hs & _).
  by exists (after e st'), (result (after e st') rw oob).
Qed.

(** In a sequence of calls the k-th result (from 0) has [done] set exactly
    when the counter, advanced k+1 times, equals [max_steps]. *)
Lemma run_done actions : ∀ e,
  wf e → Forall (λ a, action_space_contains e a = true) actions →
  ∃ e' rs,
    run compute_step check_some e actions = Some (e', rs)
    ∧ length rs = length actions
    ∧ step_counter e' = step_counter e + Z.of_nat (length actions)
    ∧ ∀ (k : nat) r, rs !! k = Some r →
        done r = (step_counter e + Z.of_nat k + 1 =? max_steps e).
Proof.
  induction actions as [|a rest IH]; intros e Hwf Hall.
  - exists e, []. simpl. repeat split; [lia|]. intros k r Hk. done.
  - apply Forall_cons in Hall as [Hc Hall].
    destruct (step_counter_done e a Hwf Hc) as (e1 & r1 & Hs & Hcnt & Hmax & Hd).
    destruct (step_wf _ _ _ _ _ _ Hwf Hc Hs) as [Hwf1 Hsame].
    destruct (IH e1 Hwf1) as (e' & rs & Hr & Hlen & Hcnt' & Hds).
    { eapply Forall_impl; [exact Hall|]. intros b Hb. by rewrite Hsame. }
    exists e', (r1 :: rs). cbn [run]. rewrite Hs, Hr.
    split; [done|]. split; [simpl; by rewrite Hlen|].
    split; [simpl length; lia|].
    intros [|k] r Hk; simpl in Hk.
    + injection Hk as <-. rewrite Hd. f_equal. lia.
    + rewrite (Hds k r Hk), Hcnt, Hmax. f_equal. lia.
Qed.

End Termination.

(** C7: every in-bounds [step] call advances [step_counter] by exactly one
    and returns [done] set exactly when the advanced counter equals
    [max_steps]; so in a sequence of calls the k-th one (from 0) has
    [done] set iff the counter at the start plus k+1 equals [max_steps],
    and every call before one with [done] set has [done] unset.  With
    the counter at 0, as after construction, and [max_steps] 1 the first
    call returns [done] set whatever the action; with the counter at 0,
    [done] is unset on every call before the [max_steps]-th. *)
Theorem done_exactly_at_max_steps
    (compute_step : Env → Q * Q) (check_some : Env → Z → bool) e actions :
  wf e → Forall (λ a, action_space_contains e a = true) actions →
  (∀ a, action_space_contains e a = true →
     ∃ e1 r, step compute_step check_some e a = Some (e1, r)
             ∧ step_counter e1 = step_counter e + 1
             ∧ done r = (step_counter e1 =? max_steps e)
             ∧ (step_counter e = 0 → max_steps e = 1 → done r = true))
  ∧ ∃ e' rs,
      run compute_step check_some e actions = Some (e', rs)
      ∧ length rs = length actions
      ∧ step_counter e' = step_counter e + Z.of_nat (length actions)
      ∧ (∀ (k : nat) r, rs !! k = Some r →
           done r = (step_counter e + Z.of_nat k + 1 =? max_steps e))
      ∧ (∀ (k : nat) r, rs !! k = Some r → done r = true →
           ∀ (j : nat) r', (j < k)%nat → rs !! j = Some r' →
                           done r' = false)
      ∧ (step_counter e = 0 →
           ∀ (k : nat) r, Z.of_nat k + 1 < max_steps e → rs !! k = Some r →
                          done r = false).
Proof.
  intros Hwf Hall. split.
  - intros a Hc.
    destruct (step_counter_done compute_step check_some e a Hwf Hc)
      as (e1 & r & Hs & Hcnt & _ & Hd).
    exists e1, r. rewrite Hcnt. repeat split; try done.
    intros H0 H1. rewrite Hd, H0, H1. done.
  - destruct (run_done compute_step check_some actions e Hwf Hall)
      as (e' & rs & Hr & Hlen & Hcnt & Hd).
    exists e', rs. repeat split; try done.
    + intros k r Hk Hdone j r' Hjk Hj.
      rewrite (Hd k r Hk) in Hdone. rewrite (Hd j r' Hj).
      apply Z.eqb_eq in Hdone. apply Z.eqb_neq. lia.
    + intros H0 k r Hlt Hk. rewrite (Hd k r Hk). apply Z.eqb_neq. lia.
Qed.

Lemma done_exactly_at_max_steps_witness :
  let e := init 1 200 5 (-10) in
  let actions := [mkAction 1 0 3 3; mkAction 0 0 3 3] in
  wf e
  ∧ Forall (λ a, action_space_contains e a = true) actions
  ∧ (∀ a, action_space_contains e a = true →
       ∃ e1 r, step mock_compute_step is_present e a = Some (e1, r)
               ∧ step_counter e1 = step_counter e + 1
               ∧ done r = (step_counter e1 =? max_steps e)
               ∧ (step_counter e = 0 → max_steps e = 1 → done r = true))
  ∧ ∃ e' rs,
      run mock_compute_step is_present e actions = Some (e', rs)
      ∧ length rs = length actions
      ∧ step_counter e' = step_counter e + Z.of_nat (length actions)
      ∧ (∀ (k : nat) r, rs !! k = Some r →
           done r = (step_counter e + Z.of_nat k + 1 =? max_steps e))
      ∧ (∀ (k : nat) r, rs !! k = Some r → done r = true →
           ∀ (j : nat) r', (j < k)%nat → rs !! j = Some r' →
                           done r' = false)
      ∧ (step_counter e = 0 →
           ∀ (k : nat) r, Z.of_nat k + 1 < max_steps e → rs !! k = Some r →
                          done r = false).
Proof.
  intros e actions.
  assert (Hall : Forall (λ a, action_space_contains e a = true) actions).
  { repeat constructor. }
  split; [reflexivity|]. split; [exact Hall|].
  apply (done_exactly_at_max_steps mock_compute_step is_present e actions
           eq_refl Hall).
Defined.

(** The same from an environment just reset: [reset] leaves the counter
    as it was. *)
Lemma reset_step_counter e : step_counter (reset e).1 = step_counter e.
Proof. done. Qed.

Lemma reset_state e :
  state (reset e).1 = replicate (max_number_of_points e) sentinel.
Proof. done. Qed.

Lemma observation_of_sentinels n :
  np_array_float16
    (concat (map (λ p : Point, [inject_Z p.1; inject_Z p.2])
                 (replicate n sentinel)))
  = replicate (2 * n) (F16 0).
Proof.
  unfold np_array_float16.
  induction n as [|n IH]; [done|].
  replace (2 * S n)%nat with (S (S (2 * n))) by lia.
  cbn [replicate map concat app]. by rewrite IH.
Qed.

Lemma reset_observation e :
  (reset e).2 = replicate (2 * max_number_of_points e + 1) (F16 0).
Proof.
  unfold reset. cbn [snd]. unfold get_state_observation, np_array_float16.
  cbn [state set_state]. rewrite map_app.
  pose proof (observation_of_sentinels (max_number_of_points e)) as H.
  unfold np_array_float16 in H. rewrite H, replicate_add. done.
Qed.

Lemma run_done_after_reset
    (compute_step : Env → Q * Q) (check_some : Env → Z → bool) e actions :
  Forall (λ a, action_space_contains e a = true) actions →
  ∃ e' rs,
    run compute_step check_some (reset e).1 actions = Some (e', rs)
    ∧ ∀ (k : nat) r, rs !! k = Some r →
        done r = (step_counter e + Z.of_nat k + 1 =? max_steps e).
Proof.
  intros Hall.
  destruct (run_done compute_step check_some actions (reset e).1)
    as (e' & rs & Hr & _ & _ & Hd); [apply wf_reset|done|].
  by exists e', rs.
Qed.

(** C1: [reset] rebuilds the array of sentinels and returns the all-zero
    observation, but it does not assign [step_counter].  With
    [max_steps] 1: the first call ends the episode with the counter at 1;
    after [reset] the counter is still 1, not 0, and the next call moves
    it to 2 and returns [done] unset. *)
Theorem reset_leaves_step_counter :
  let e := init 1 200 5 (-10) in
  ∃ e1 r1,
    step mock_compute_step is_present e (mkAction 0 0 5 5) = Some (e1, r1)
    ∧ step_counter e1 = 1 ∧ done r1 = true
    ∧ state (reset e1).1 = replicate 5 sentinel
    ∧ (reset e1).2 = replicate 11 (F16 0)
    ∧ step_counter (reset e1).1 = 1
    ∧ ∃ e2 r2,
        step mock_compute_step is_present (reset e1).1 (mkAction 0 0 5 5)
          = Some (e2, r2)
        ∧ step_counter e2 = 2 ∧ done r2 = false.
Proof.
  intros e. eexists _, _. split; [vm_compute; reflexivity|].
  repeat split. eexists _, _. split; [vm_compute; reflexivity|].
  by split.
Qed.

(** ** Road points *)

(** [get_road_points] returns, in cell order, the converted pair of every
    cell whose two coordinates are both different from 0. *)
Lemma get_road_points_from_seq e m : ∀ k road_points,
  (k + m)%nat = length (state e) →
  get_road_points_from e (seq k m) road_points
  = Some (road_points
          ++ map (λ p : Point, (to_continuous e p.1, to_continuous e p.2))
                 (filter (λ p : Point, p.1 ≠ 0 ∧ p.2 ≠ 0)
                         (drop k (state e)))).
Proof.
  induction m as [|m IH]; intros k acc Hk; cbn [seq get_road_points_from].
  - rewrite drop_ge by lia. by rewrite app_nil_r.
  - destruct (lookup_lt_is_Some_2 (state e) k) as [p Hp]; [lia|].
    rewrite Hp, (drop_S _ _ _ Hp).
    destruct (negb (p.1 =? 0) && negb (p.2 =? 0)) eqn:E;
      rewrite IH by lia.
    + rewrite filter_cons_True.
      * by rewrite <- app_assoc.
      * apply andb_true_iff in E as [E1 E2].
        apply negb_true_iff in E1, E2. by apply Z.eqb_neq in E1, E2.
    + rewrite filter_cons_False; [done|]. intros [H1 H2].
      apply Z.eqb_neq in H1, H2. by rewrite H1, H2 in E.
Qed.

Lemma get_road_points_spec e :
  wf e →
  get_road_points e
  = Some (map (λ p : Point, (to_continuous e p.1, to_continuous e p.2))
              (filter (λ p : Point, p.1 ≠ 0 ∧ p.2 ≠ 0) (state e))).
Proof.
  intros Hwf. unfold get_road_points.
  by rewrite get_road_points_from_seq by (by rewrite Hwf).
Qed.

(** C2: the array reached by adding (0,5), (5,0) and (3,4) holds three
    points, none of them the sentinel, and the snapshot of the present
    points has three pairs; [get_road_points] returns only the pair of
    (3,4): it skips a cell as soon as one of its coordinates is 0. *)
Theorem get_road_points_skips_zero_coordinate :
  let e := mkEnv 1000 200 3 (-10) [(0, 5); (5, 0); (3, 4)] 3 in
  fst <$> run mock_compute_step is_present (init 1000 200 3 (-10))
            [mkAction 0 0 0 5; mkAction 0 1 5 0; mkAction 0 2 3 4] = Some e
  ∧ get_road_points e = Some [(to_continuous e 3, to_continuous e 4)]
  ∧ snapshot e = [(to_continuous e 0, to_continuous e 5);
                  (to_continuous e 5, to_continuous e 0);
                  (to_continuous e 3, to_continuous e 4)]
  ∧ get_road_points e ≠ Some (snapshot e).
Proof.
  intros e. split; [by vm_compute|]. split; [done|]. split; [done|].
  rewrite get_road_points_spec by done. intros H. discriminate H.
Qed.

(** ** The width of the observation *)

(** The bound of the coordinate entries of the action space is nine times
    the grid size. *)
Lemma discrete_extent e :
  int64_of_Q (number_of_discrete_coords e) = 9 * grid_size e.
Proof.
  unfold int64_of_Q, number_of_discrete_coords, map_buffer_area_width,
    discretization_precision.
  unfold Qminus, Qopp, Qdiv, Qmult, Qplus, Qinv, inject_Z. simpl.
  change (Z.pos (1 * (1 * 20 * 1))) with 20.
  change (Z.pos (1 * 1)) with 1.
  change (Z.pos (1 * 1 * (1 * (1 * 20 * 1)))) with 20.
  replace (grid_size e * 10 * 20 + - (2 * (grid_size e * 1 * 10)) * 1)
    with (9 * grid_size e * 20) by lia.
  by rewrite Z.quot_mul.
Qed.

(** Every integer from 0 to 2048 is a float16. *)
Lemma float16_of_small_integers :
  forallb (λ n, match float16_of_Q (inject_Z n) with
                | F16 v => (Qnum v =? n) && (Z.pos (Qden v) =? 1)
                | F16_inf _ => false
                end)
          (map Z.of_nat (seq 0 2049)) = true.
Proof. by vm_compute. Qed.

Lemma float16_of_Q_exact n :
  0 ≤ n ≤ 2048 → float16_of_Q (inject_Z n) = F16 (inject_Z n).
Proof.
  intros Hn. pose proof float16_of_small_integers as H.
  rewrite forallb_forall in H.
  assert (Hin : In n (map Z.of_nat (seq 0 2049))).
  { apply in_map_iff. exists (Z.to_nat n). split; [lia|]. apply in_seq. lia. }
  apply H in Hin. clear H.
  destruct (float16_of_Q (inject_Z n)) as [[a b]|]; [|discriminate Hin].
  cbn [Qnum Qden] in Hin.
  apply andb_true_iff in Hin as [->%Z.eqb_eq Hb%Z.eqb_eq].
  unfold inject_Z. by injection Hb as ->.
Qed.

(** With [grid_size] 228 the coordinates 2048 and 2049 are both
    addressable (the bound is 2052) and distinct, and the observation
    holds the same float16, 2048, for both. *)
Lemma float16_aliases_2048_and_2049 :
  ¬ ∀ e, observation_encoding_injective e.
Proof.
  intros H. by apply (H (init 1000 228 5 (-10)) 2048 2049).
Qed.

(** When the bound of the coordinate entries is at most 2049, that is
    [grid_size] at most 227 (the default 200 gives 1800), the float16 of
    every addressable coordinate is that coordinate, so distinct
    addressable coordinates have distinct entries in the observation. *)
Theorem float16_injective_up_to_2049 e (a b : Z) :
  int64_of_Q (number_of_discrete_coords e) ≤ 2049 →
  0 ≤ a < int64_of_Q (number_of_discrete_coords e) →
  0 ≤ b < int64_of_Q (number_of_discrete_coords e) →
  a ≠ b →
  float16_of_Q (inject_Z a) = F16 (inject_Z a)
  ∧ float16_of_Q (inject_Z a) ≠ float16_of_Q (inject_Z b).
Proof.
  intros Hext Ha Hb Hab.
  rewrite !float16_of_Q_exact by lia. split; [done|].
  intros [=]. done.
Qed.

Lemma float16_injective_up_to_2049_witness :
  let e := init 1000 200 5 (-10) in
  int64_of_Q (number_of_discrete_coords e) ≤ 2049
  ∧ 0 ≤ 1798 < int64_of_Q (number_of_discrete_coords e)
  ∧ 0 ≤ 1799 < int64_of_Q (number_of_discrete_coords e)
  ∧ 1798 ≠ 1799
  ∧ float16_of_Q (inject_Z 1798) = F16 (inject_Z 1798)
  ∧ float16_of_Q (inject_Z 1798) ≠ float16_of_Q (inject_Z 1799).
Proof.
  intros e.
  assert (He : int64_of_Q (number_of_discrete_coords e) ≤ 2049)
    by discriminate.
  assert (Ha : 0 ≤ 1798 < int64_of_Q (number_of_discrete_coords e))
    by (split; [discriminate|reflexivity]).
  assert (Hb : 0 ≤ 1799 < int64_of_Q (number_of_discrete_coords e))
    by (split; [discriminate|reflexivity]).
  assert (Hab : 1798 ≠ 1799) by discriminate.
  split; [exact He|]. split; [exact Ha|]. split; [exact Hb|].
  split; [exact Hab|].
  apply (float16_injective_up_to_2049 e 1798 1799 He Ha Hb Hab).
Defined.

(** In binary64 and with the default grid size 200 the conversion is
    strictly increasing over the 1800 addressable coordinates as well:
    rounding does not merge neighbours. *)
Lemma to_continuous_binary64_strictly_increasing :
  forallb (λ d, PrimFloat.ltb (to_continuous_binary64 200 d)
                              (to_continuous_binary64 200 (d + 1)))
          (map Z.of_nat (seq 0 1799)) = true.
Proof. by vm_compute. Qed.

(** ** Further facts about the code *)

(** An action outside the action space fails the assertion. *)
Lemma step_out_of_bounds
    (compute_step : Env → Q * Q) (check_some : Env → Z → bool) e a :
  action_space_contains e a = false →
  step compute_step check_some e a = None.
Proof. intros Hc. unfold step. by rewrite Hc. Qed.

(** [get_road_points] and the snapshot of the present points agree on
    every array without a cell that has exactly one coordinate at 0. *)
Lemma filter_both_nonzero (st : list Point) :
  (∀ p, p ∈ st → p.1 = 0 ↔ p.2 = 0) →
  filter (λ p : Point, p.1 ≠ 0 ∧ p.2 ≠ 0) st
  = filter (λ p : Point, p ≠ sentinel) st.
Proof.
  induction st as [|[px py] st IH]; intros Hst; [done|].
  assert (Hp : px = 0 ↔ py = 0) by (apply (Hst (px, py)); left).
  assert (IH' := IH (λ p Hin, Hst p (list_elem_of_further _ _ _ Hin))).
  destruct (decide (px = 0)) as [Hx|Hx].
  - rewrite !filter_cons_False; [done| |].
    + intros Hne. apply Hne. unfold sentinel. f_equal; tauto.
    + simpl. tauto.
  - rewrite !filter_cons_True; [by rewrite IH'| |].
    + intros [=]. done.
    + simpl. tauto.
Qed.

Lemma get_road_points_snapshot e :
  wf e → (∀ p, p ∈ state e → p.1 = 0 ↔ p.2 = 0) →
  get_road_points e = Some (snapshot e).
Proof.
  intros Hwf Hst. rewrite get_road_points_spec by done.
  unfold snapshot. by rewrite filter_both_nonzero.
Qed.

(** The bound 2049 is sharp: from 2050 on, two addressable coordinates
    share a float16. *)
Lemma float16_aliases_from_2050 e :
  2050 ≤ int64_of_Q (number_of_discrete_coords e) →
  ¬ observation_encoding_injective e.
Proof.
  intros Hext H. apply (H 2048 2049); [lia|lia|done|done].
Qed.

(** With [grid_size] 228, adding (2048,1) or (2049,1) at cell 0 leaves
    different arrays and returns the same observation. *)
Lemma step_observations_alias :
  let e := init 1000 228 2 (-10) in
  ∃ e1 r1 e2 r2,
    step mock_compute_step is_present e (mkAction 0 0 2048 1) = Some (e1, r1)
    ∧ step mock_compute_step is_present e (mkAction 0 0 2049 1)
      = Some (e2, r2)
    ∧ state e1 ≠ state e2
    ∧ obs r1 = obs r2.
Proof.
  intros e. eexists _, _, _, _.
  split; [by vm_compute|]. split; [by vm_compute|]. by split.
Qed.

(** ** Properties of the environment beyond the claims *)

Lemma elem_of_insert_inv (st : list Point) i q p :
  p ∈ <[i := q]> st → p = q ∨ p ∈ st.
Proof.
  intros (j & Hj)%list_elem_of_lookup.
  apply list_lookup_insert_Some in Hj as [(_ & <- & _)|(_ & Hj)].
  - by left.
  - right. apply list_elem_of_lookup. by exists j.
Qed.

Section Runs.

Variable compute_step : Env → Q * Q.
Variable check_some : Env → Z → bool.

(** A property of the environment that every in-bounds call keeps holds
    after every sequence of in-bounds calls, and the sequence runs to its
    end. *)
Lemma run_preserves (P : Env → Prop) :
  (∀ e a e' r,
     wf e → action_space_contains e a = true → P e →
     step compute_step check_some e a = Some (e', r) → P e') →
  ∀ actions e,
    wf e → P e →
    Forall (λ a, action_space_contains e a = true) actions →
    ∃ e' rs, run compute_step check_some e actions = Some (e', rs)
             ∧ wf e' ∧ P e'.
Proof.
  intros Hstep actions.
  induction actions as [|a rest IH]; intros e Hwf HP Hall.
  - by exists e, [].
  - apply Forall_cons in Hall as [Hc Hall].
    destruct (step_cases compute_step check_some e a Hwf Hc)
      as (st' & rw & oob & Hs & _).
    destruct (step_wf _ _ _ _ _ _ Hwf Hc Hs) as [Hwf' Hsame].
    pose proof (Hstep _ _ _ _ Hwf Hc HP Hs) as HP'.
    destruct (IH (after e st') Hwf' HP') as (e'' & rs & Hr & ? & ?).
    { eapply Forall_impl; [exact Hall|]. intros b Hb. by rewrite Hsame. }
    exists e'', (result (after e st') rw oob :: rs).
    cbn [run]. by rewrite Hs, Hr.
Qed.

Lemma step_same_configuration e a e' r :
  wf e → action_space_contains e a = true →
  step compute_step check_some e a = Some (e', r) →
  same_configuration e e'.
Proof.
  intros Hwf Hc Hs.
  destruct (step_cases compute_step check_some e a Hwf Hc)
    as (st' & rw & oob & Hs' & _).
  rewrite Hs in Hs'. by injection Hs' as -> _.
Qed.

Lemma step_cells_in_bounds e a e' r :
  wf e → action_space_contains e a = true → cells_in_bounds e →
  step compute_step check_some e a = Some (e', r) →
  cells_in_bounds e'.
Proof.
  intros Hwf Hc Hb Hs.
  destruct (step_cases compute_step check_some e a Hwf Hc)
    as (st' & rw & oob & Hs' & Hcase).
  rewrite Hs in Hs'. injection Hs' as -> _.
  pose proof (contains_bounds e a Hc) as (_ & _ & Hx & Hy).
  rewrite discrete_extent in Hx, Hy.
  unfold cells_in_bounds. cbn [state after set_state grid_size
    set_step_counter].
  destruct Hcase as [(_&_&->&_)|[(_&_&->&_)|[(_&_&->&_)|(_&_&->&_)]]];
    try exact Hb.
  - intros p Hp. apply elem_of_insert_inv in Hp as [->|Hp].
    + right. done.
    + by apply Hb.
  - intros p Hp. apply elem_of_insert_inv in Hp as [->|Hp].
    + by left.
    + by apply Hb.
Qed.

End Runs.

Lemma bounds_contains e a :
  (action_type a = ADD_UPDATE ∨ action_type a = REMOVE) →
  0 ≤ position a < Z.of_nat (max_number_of_points e) →
  0 ≤ x a < 9 * grid_size e → 0 ≤ y a < 9 * grid_size e →
  action_space_contains e a = true.
Proof.
  intros Ht Hp Hx Hy. unfold action_space_contains, action_nvec.
  rewrite discrete_extent.
  rewrite !andb_true_iff, !Z.leb_le, !Z.ltb_lt.
  unfold ADD_UPDATE, REMOVE in Ht. lia.
Qed.

Lemma length_get_state_observation e :
  length (get_state_observation e) = (2 * length (state e))%nat.
Proof.
  unfold get_state_observation.
  induction (state e) as [|p st IH]; [done|].
  cbn [map concat app length]. rewrite IH. lia.
Qed.

Lemma same_configuration_trans e1 e2 e3 :
  same_configuration e1 e2 → same_configuration e2 e3 →
  same_configuration e1 e3.
Proof.
  unfold same_configuration. intros (?&?&?&?) (?&?&?&?).
  repeat split; congruence.
Qed.

(** X2: the observation returned by an in-bounds [step] call, like the
    one returned by [reset], has 2 * max_number_of_points + 1 entries,
    as many as the observation space declared by the constructor. *)
Theorem observation_has_the_length_of_the_space
    (compute_step : Env → Q * Q) (check_some : Env → Z → bool) e a :
  wf e → action_space_contains e a = true →
  ∃ e' r,
    step compute_step check_some e a = Some (e', r)
    ∧ length (obs r) = (2 * max_number_of_points e + 1)%nat
    ∧ length (obs r) = length (observation_nvec e)
    ∧ length (reset e').2 = length (observation_nvec e).
Proof.
  intros Hwf Hc.
  destruct (step_cases compute_step check_some e a Hwf Hc)
    as (st' & rw & oob & Hs & _).
  destruct (step_wf _ _ _ _ _ _ Hwf Hc Hs) as [Hwf' _].
  eexists _, _. split; [exact Hs|].
  assert (Hn : length (observation_nvec e)
               = (2 * max_number_of_points e + 1)%nat).
  { unfold observation_nvec. cbn zeta.
    by rewrite length_app, length_replicate. }
  rewrite Hn, reset_observation, length_replicate.
  cbn [obs result]. unfold np_array_float16.
  rewrite length_map, length_app, length_get_state_observation, Hwf'.
  done.
Qed.

Lemma observation_has_the_length_of_the_space_witness :
  let e := init 1000 200 5 (-10) in
  let a := mkAction 0 2 17 40 in
  wf e
  ∧ action_space_contains e a = true
  ∧ ∃ e' r,
      step mock_compute_step is_present e a = Some (e', r)
      ∧ length (obs r) = (2 * max_number_of_points e + 1)%nat
      ∧ length (obs r) = length (observation_nvec e)
      ∧ length (reset e').2 = length (observation_nvec e).
Proof.
  intros e a. split; [reflexivity|]. split; [reflexivity|].
  apply (observation_has_the_length_of_the_space mock_compute_step
           is_present e a); reflexivity.
Defined.

(** X3: a sequence of in-bounds [step] calls never changes the
    configuration ([max_steps], [grid_size], [max_number_of_points],
    [invalid_test_reward]) and never resizes the array. *)
Theorem run_keeps_configuration
    (compute_step : Env → Q * Q) (check_some : Env → Z → bool) e actions :
  wf e →
  Forall (λ a, action_space_contains e a = true) actions →
  ∃ e' rs,
    run compute_step check_some e actions = Some (e', rs)
    ∧ max_steps e' = max_steps e
    ∧ grid_size e' = grid_size e
    ∧ max_number_of_points e' = max_number_of_points e
    ∧ invalid_test_reward e' = invalid_test_reward e
    ∧ length (state e') = length (state e).
Proof.
  intros Hwf Hall.
  destruct (run_preserves compute_step check_some
              (same_configuration e)) with (actions := actions) (e := e)
    as (e' & rs & Hr & Hwf' & Hcfg); try done.
  - intros e1 a e2 r Hwf1 Hc Hcfg Hs.
    eapply same_configuration_trans; [exact Hcfg|].
    by eapply step_same_configuration.
  - exists e', rs. destruct Hcfg as (? & ? & Hn & ?).
    repeat split; try done. unfold wf in *. congruence.
Qed.

Lemma run_keeps_configuration_witness :
  let e := init 7 200 3 (-10) in
  let actions := [mkAction 0 0 5 5; mkAction 1 0 0 0; mkAction 1 2 9 9] in
  wf e
  ∧ Forall (λ a, action_space_contains e a = true) actions
  ∧ ∃ e' rs,
      run mock_compute_step is_present e actions = Some (e', rs)
      ∧ max_steps e' = max_steps e
      ∧ grid_size e' = grid_size e
      ∧ max_number_of_points e' = max_number_of_points e
      ∧ invalid_test_reward e' = invalid_test_reward e
      ∧ length (state e') = length (state e).
Proof.
  intros e actions.
  assert (Hall : Forall (λ a, action_space_contains e a = true) actions).
  { repeat constructor. }
  split; [reflexivity|]. split; [exact Hall|].
  apply (run_keeps_configuration mock_compute_step is_present e actions
           eq_refl Hall).
Defined.

(** X5: once the counter has reached [max_steps], further in-bounds
    [step] calls still return (nothing stops an episode that is over)
    and none of them reports [done]. *)
Theorem no_done_once_max_steps_is_reached
    (compute_step : Env → Q * Q) (check_some : Env → Z → bool) e actions :
  wf e → max_steps e ≤ step_counter e →
  Forall (λ a, action_space_contains e a = true) actions →
  ∃ e' rs,
    run compute_step check_some e actions = Some (e', rs)
    ∧ length rs = length actions
    ∧ Forall (λ r, done r = false) rs.
Proof.
  intros Hwf Hover Hall.
  destruct (run_done compute_step check_some actions e Hwf Hall)
    as (e' & rs & Hr & Hlen & _ & Hd).
  exists e', rs. repeat split; try done.
  apply Forall_lookup. intros k r Hk.
  rewrite (Hd k r Hk). apply Z.eqb_neq. lia.
Qed.

Lemma no_done_once_max_steps_is_reached_witness :
  let e := mkEnv 2 200 3 (-10) [(5, 5); (0, 0); (0, 0)] 2 in
  let actions := [mkAction 0 1 6 6; mkAction 1 2 0 0] in
  wf e
  ∧ max_steps e ≤ step_counter e
  ∧ Forall (λ a, action_space_contains e a = true) actions
  ∧ ∃ e' rs,
      run mock_compute_step is_present e actions = Some (e', rs)
      ∧ length rs = length actions
      ∧ Forall (λ r, done r = false) rs.
Proof.
  intros e actions.
  assert (Hover : max_steps e ≤ step_counter e) by discriminate.
  assert (Hall : Forall (λ a, action_space_contains e a = true) actions).
  { repeat constructor. }
  split; [reflexivity|]. split; [exact Hover|]. split; [exact Hall|].
  apply (no_done_once_max_steps_is_reached mock_compute_step is_present
           e actions eq_refl Hover Hall).
Defined.

(** X6: on a well-formed environment [get_road_points] returns, in cell
    order, the converted pair of exactly the cells whose two coordinates
    are both different from 0; it never returns more pairs than there
    are cells. *)
Theorem get_road_points_keeps_cells_without_zero e :
  wf e →
  ∃ pts,
    get_road_points e = Some pts
    ∧ pts = map (λ p : Point, (to_continuous e p.1, to_continuous e p.2))
                (filter (λ p : Point, p.1 ≠ 0 ∧ p.2 ≠ 0) (state e))
    ∧ (length pts ≤ max_number_of_points e)%nat.
Proof.
  intros Hwf. eexists. split; [by apply get_road_points_spec|].
  split; [done|]. rewrite length_map, <- Hwf. apply length_filter.
Qed.

Lemma get_road_points_keeps_cells_without_zero_witness :
  let e := mkEnv 1000 200 4 (-10) [(3, 4); (0, 0); (0, 9); (7, 1)] 3 in
  wf e
  ∧ ∃ pts,
      get_road_points e = Some pts
      ∧ pts = map (λ p : Point, (to_continuous e p.1, to_continuous e p.2))
                  (filter (λ p : Point, p.1 ≠ 0 ∧ p.2 ≠ 0) (state e))
      ∧ (length pts ≤ max_number_of_points e)%nat.
Proof.
  intros e. split; [reflexivity|].
  apply (get_road_points_keeps_cells_without_zero e). reflexivity.
Defined.

(** X7: on a well-formed environment [check_coordinates_already_exist]
    returns, and returns True exactly when some cell of the array holds
    the pair [(x, y)]; cells holding the sentinel count, so with an empty
    cell in the array it returns True for (0,0). *)
Theorem check_coordinates_already_exist_iff_held e (x y : Z) :
  wf e →
  ∃ b,
    check_coordinates_already_exist e x y = Some b
    ∧ (b = true ↔ ∃ i : nat, state e !! i = Some (x, y))
    ∧ (sentinel ∈ state e → x = 0 → y = 0 → b = true).
Proof.
  intros Hwf.
  destruct (check_coordinates_already_exist_spec e x y Hwf) as (b & Hb & Hiff).
  exists b. split; [done|]. split.
  - by rewrite Hiff, list_elem_of_lookup.
  - intros Hin -> ->. by apply Hiff.
Qed.

Lemma check_coordinates_already_exist_iff_held_witness :
  let e := mkEnv 1000 200 3 (-10) [(3, 4); (0, 0); (7, 1)] 3 in
  wf e
  ∧ ∃ b,
      check_coordinates_already_exist e 7 1 = Some b
      ∧ (b = true ↔ ∃ i : nat, state e !! i = Some (7, 1))
      ∧ (sentinel ∈ state e → 7 = 0 → 1 = 0 → b = true).
Proof.
  intros e. split; [reflexivity|].
  apply (check_coordinates_already_exist_iff_held e 7 1). reflexivity.
Defined.

Lemma filter_replicate_sentinel n :
  filter (λ p : Point, p.1 ≠ 0 ∧ p.2 ≠ 0) (replicate n sentinel) = [].
Proof.
  induction n as [|n IH]; [done|]. cbn [replicate].
  rewrite filter_cons_False; [done|]. simpl. tauto.
Qed.

(** X8: [reset] can be called on any environment: it leaves a
    well-formed environment whose cells are all empty and whose road is
    empty, returns the observation of 2 * max_number_of_points + 1
    zeros, keeps the configuration and the step counter, and calling it
    again changes nothing. *)
Theorem reset_postcondition e :
  wf (reset e).1
  ∧ state (reset e).1 = replicate (max_number_of_points e) sentinel
  ∧ (reset e).2 = replicate (2 * max_number_of_points e + 1) (F16 0)
  ∧ get_road_points (reset e).1 = Some []
  ∧ same_configuration e (reset e).1
  ∧ step_counter (reset e).1 = step_counter e
  ∧ reset (reset e).1 = reset e.
Proof.
  split; [apply wf_reset|]. split; [done|].
  split; [apply reset_observation|].
  split; [|done].
  rewrite get_road_points_spec by apply wf_reset.
  rewrite reset_state. by rewrite filter_replicate_sentinel.
Qed.

Lemma np_array_float16_exact (st : list Point) :
  (∀ p : Point, p ∈ st → 0 ≤ p.1 ≤ 2048 ∧ 0 ≤ p.2 ≤ 2048) →
  np_array_float16
    (concat (map (λ p : Point, [inject_Z p.1; inject_Z p.2]) st))
  = concat (map (λ p : Point, [F16 (inject_Z p.1); F16 (inject_Z p.2)]) st).
Proof.
  unfold np_array_float16.
  induction st as [|p st IH]; intros Hst; [done|].
  cbn [map concat app].
  destruct (Hst p) as [H1 H2]; [left|].
  rewrite !float16_of_Q_exact by done. f_equal. f_equal.
  apply IH. intros q Hq. apply Hst. by right.
Qed.

(** X9: with [grid_size] at most 227 and every coordinate of the array
    between 0 and 2048, the observation an in-bounds [step] call returns
    lists, before its last entry, exactly the coordinates of the array
    the call leaves: x then y, cell by cell, nothing rounded. *)
Theorem observation_lists_the_array
    (compute_step : Env → Q * Q) (check_some : Env → Z → bool) e a :
  wf e → action_space_contains e a = true →
  grid_size e ≤ 227 →
  (∀ p : Point, p ∈ state e → 0 ≤ p.1 ≤ 2048 ∧ 0 ≤ p.2 ≤ 2048) →
  ∃ e' r,
    step compute_step check_some e a = Some (e', r)
    ∧ take (2 * max_number_of_points e) (obs r)
      = concat (map (λ p : Point, [F16 (inject_Z p.1); F16 (inject_Z p.2)])
                    (state e')).
Proof.
  intros Hwf Hc Hg Hst.
  destruct (step_cases compute_step check_some e a Hwf Hc)
    as (st' & rw & oob & Hs & Hcase).
  destruct (step_wf _ _ _ _ _ _ Hwf Hc Hs) as [Hwf' _].
  exists (after e st'), (result (after e st') rw oob).
  split; [done|].
  pose proof (contains_bounds e a Hc) as (_ & _ & Hx & Hy).
  rewrite discrete_extent in Hx, Hy.
  assert (Hst' : ∀ p : Point, p ∈ st' → 0 ≤ p.1 ≤ 2048 ∧ 0 ≤ p.2 ≤ 2048).
  { destruct Hcase as [(_&_&->&_)|[(_&_&->&_)|[(_&_&->&_)|(_&_&->&_)]]];
      try done; intros p [->|Hp]%elem_of_insert_inv; try by apply Hst.
    - simpl. lia.
    - simpl. lia. }
  cbn [obs result]. unfold np_array_float16. rewrite map_app.
  rewrite take_app_length'.
  - apply (np_array_float16_exact st' Hst').
  - rewrite length_map, length_get_state_observation.
    unfold wf in Hwf'. simpl in *. lia.
Qed.

Lemma observation_lists_the_array_witness :
  let e := mkEnv 1000 200 2 (-10) [(1799, 3); (0, 0)] 1 in
  let a := mkAction 0 1 1024 1798 in
  wf e
  ∧ action_space_contains e a = true
  ∧ grid_size e ≤ 227
  ∧ (∀ p : Point, p ∈ state e → 0 ≤ p.1 ≤ 2048 ∧ 0 ≤ p.2 ≤ 2048)
  ∧ ∃ e' r,
      step mock_compute_step is_present e a = Some (e', r)
      ∧ take (2 * max_number_of_points e) (obs r)
        = concat (map (λ p : Point,
                         [F16 (inject_Z p.1); F16 (inject_Z p.2)])
                      (state e')).
Proof.
  intros e a.
  assert (Hg : grid_size e ≤ 227) by discriminate.
  assert (Hst : ∀ p : Point, p ∈ state e →
                  0 ≤ p.1 ≤ 2048 ∧ 0 ≤ p.2 ≤ 2048).
  { intros p Hp. apply list_elem_of_In in Hp. simpl in Hp.
    destruct Hp as [<-|[<-|[]]]; simpl; lia. }
  split; [reflexivity|]. split; [reflexivity|]. split; [exact Hg|].
  split; [exact Hst|].
  apply (observation_lists_the_array mock_compute_step is_present e a
           eq_refl eq_refl Hg Hst).
Defined.

Lemma to_continuous_inside e (d : Z) :
  0 < grid_size e → 0 ≤ d < 9 * grid_size e →
  (0 < to_continuous e d ∧ to_continuous e d < inject_Z (grid_size e))%Q.
Proof.
  intros Hg Hd.
  unfold to_continuous, map_buffer_area_width, discretization_precision.
  unfold Qlt, Qdiv, Qmult, Qplus, Qinv, inject_Z. simpl. lia.
Qed.

(** X10: with a positive [grid_size] and every cell empty or holding
    coordinates of the action space, every point [get_road_points]
    returns lies strictly inside the map: both of its coordinates are
    above 0 and below [grid_size]. *)
Theorem road_points_lie_inside_the_map e :
  wf e → 0 < grid_size e →
  (∀ p : Point, p ∈ state e →
     p = sentinel ∨ (0 ≤ p.1 < 9 * grid_size e ∧ 0 ≤ p.2 < 9 * grid_size e)) →
  ∃ pts,
    get_road_points e = Some pts
    ∧ ∀ c : Q * Q, c ∈ pts →
        (0 < c.1 ∧ c.1 < inject_Z (grid_size e)
         ∧ 0 < c.2 ∧ c.2 < inject_Z (grid_size e))%Q.
Proof.
  intros Hwf Hg Hb. eexists. split; [by apply get_road_points_spec|].
  intros c Hc. apply list_elem_of_In, in_map_iff in Hc as (p & <- & Hp).
  apply list_elem_of_In, list_elem_of_filter in Hp as [_ Hp].
  assert (Hr : 0 ≤ p.1 < 9 * grid_size e ∧ 0 ≤ p.2 < 9 * grid_size e).
  { destruct (Hb p Hp) as [->|Hr]; [simpl; lia|done]. }
  destruct (to_continuous_inside e p.1 Hg (proj1 Hr)).
  destruct (to_continuous_inside e p.2 Hg (proj2 Hr)).
  done.
Qed.

Lemma road_points_lie_inside_the_map_witness :
  let e := mkEnv 1000 200 3 (-10) [(1799, 1); (0, 0); (1, 1799)] 2 in
  wf e
  ∧ 0 < grid_size e
  ∧ (∀ p : Point, p ∈ state e →
       p = sentinel
       ∨ (0 ≤ p.1 < 9 * grid_size e ∧ 0 ≤ p.2 < 9 * grid_size e))
  ∧ ∃ pts,
      get_road_points e = Some pts
      ∧ ∀ c : Q * Q, c ∈ pts →
          (0 < c.1 ∧ c.1 < inject_Z (grid_size e)
           ∧ 0 < c.2 ∧ c.2 < inject_Z (grid_size e))%Q.
Proof.
  intros e.
  assert (Hg : 0 < grid_size e) by reflexivity.
  assert (Hb : ∀ p : Point, p ∈ state e →
            p = sentinel
            ∨ (0 ≤ p.1 < 9 * grid_size e ∧ 0 ≤ p.2 < 9 * grid_size e)).
  { intros p Hp. apply list_elem_of_In in Hp. simpl in Hp.
    destruct Hp as [<-|[<-|[<-|[]]]]; right; simpl; lia. }
  split; [reflexivity|]. split; [exact Hg|]. split; [exact Hb|].
  apply (road_points_lie_inside_the_map e eq_refl Hg Hb).
Defined.

(** X11: after an accepted ADD_UPDATE of a pair, an in-bounds ADD_UPDATE
    of the same pair at any position, the same or another, is rejected:
    it returns [invalid_test_reward] and the array stays as the first
    call left it; both calls count as steps. *)
Theorem add_update_twice_second_rejected
    (compute_step : Env → Q * Q) (check_some : Env → Z → bool) e a b :
  wf e →
  action_space_contains e a = true → action_space_contains e b = true →
  action_type a = ADD_UPDATE → action_type b = ADD_UPDATE →
  (x a, y a) ∉ state e →
  x b = x a → y b = y a →
  ∃ e' r1 r2,
    run compute_step check_some e [a; b] = Some (e', [r1; r2])
    ∧ reward r2 = invalid_test_reward e
    ∧ state e' = <[Z.to_nat (position a) := (x a, y a)]> (state e)
    ∧ step_counter e' = step_counter e + 2.
Proof.
  intros Hwf Ha Hb Hta Htb Hfresh Hx Hy.
  pose proof (step_add_fresh compute_step check_some e a Hwf Ha Hta Hfresh)
    as Hs1. cbv zeta in Hs1.
  set (e1 := after e (<[Z.to_nat (position a) := (x a, y a)]> (state e)))
    in *.
  assert (Hwf1 : wf e1).
  { apply wf_after; [by rewrite length_insert|done]. }
  assert (Hin : (x b, y b) ∈ state e1).
  { rewrite Hx, Hy. apply list_elem_of_insert.
    by apply contains_position. }
  pose proof (step_add_duplicate compute_step check_some e1 b Hwf1 Hb Htb Hin)
    as Hs2. cbv zeta in Hs2.
  eexists _, _, _. cbn [run]. rewrite Hs1, Hs2.
  split; [done|]. simpl. repeat split. lia.
Qed.

Lemma add_update_twice_second_rejected_witness :
  let e := init 1000 200 3 (-10) in
  let a := mkAction 0 0 5 5 in
  let b := mkAction 0 1 5 5 in
  wf e
  ∧ action_space_contains e a = true ∧ action_space_contains e b = true
  ∧ action_type a = ADD_UPDATE ∧ action_type b = ADD_UPDATE
  ∧ ((x a, y a) ∉ state e)
  ∧ x b = x a ∧ y b = y a
  ∧ ∃ e' r1 r2,
      run mock_compute_step is_present e [a; b] = Some (e', [r1; r2])
      ∧ reward r2 = invalid_test_reward e
      ∧ state e' = <[Z.to_nat (position a) := (x a, y a)]> (state e)
      ∧ step_counter e' = step_counter e + 2.
Proof.
  intros e a b.
  assert (Hfresh : (x a, y a) ∉ state e).
  { intros [Heq _]%elem_of_replicate. discriminate Heq. }
  repeat (split; [first [reflexivity | exact Hfresh]|]).
  apply (add_update_twice_second_rejected mock_compute_step is_present
           e a b eq_refl eq_refl eq_refl eq_refl eq_refl Hfresh
           eq_refl eq_refl).
Defined.

(** X12: an accepted ADD_UPDATE of a pair without a zero coordinate into
    an empty cell, followed by a REMOVE at the same position, leaves the
    array exactly as it was before the two calls.  The parent's test
    used by REMOVE is only assumed to answer "a point" on a cell whose
    two coordinates differ from 0. *)
Theorem add_update_then_remove_restores_the_array
    (compute_step : Env → Q * Q) (check_some : Env → Z → bool) e a b :
  wf e →
  action_space_contains e a = true → action_space_contains e b = true →
  action_type a = ADD_UPDATE → action_type b = REMOVE →
  position b = position a →
  state e !! Z.to_nat (position a) = Some sentinel →
  (x a, y a) ∉ state e → x a ≠ 0 → y a ≠ 0 →
  (∀ e0 p (q : Point),
     state e0 !! Z.to_nat p = Some q → q.1 ≠ 0 → q.2 ≠ 0 →
     check_some e0 p = true) →
  ∃ e' r1 r2,
    run compute_step check_some e [a; b] = Some (e', [r1; r2])
    ∧ state e' = state e
    ∧ step_counter e' = step_counter e + 2.
Proof.
  intros Hwf Ha Hb Hta Htb Hpos Hempty Hfresh Hx Hy Hchk.
  pose proof (contains_position e a Hwf Ha) as Hlt.
  pose proof (step_add_fresh compute_step check_some e a Hwf Ha Hta Hfresh)
    as Hs1. cbv zeta in Hs1.
  set (e1 := after e (<[Z.to_nat (position a) := (x a, y a)]> (state e)))
    in *.
  assert (Hwf1 : wf e1).
  { apply wf_after; [by rewrite length_insert|done]. }
  assert (Hp : check_some (after e1 (state e1)) (position b) = true).
  { apply (Hchk _ _ (x a, y a)); try done.
    rewrite Hpos. by apply list_lookup_insert_eq. }
  pose proof (step_remove_present compute_step check_some e1 b Hwf1 Hb Htb Hp)
    as Hs2. cbv zeta in Hs2.
  eexists _, _, _. cbn [run]. rewrite Hs1, Hs2.
  split; [done|]. simpl. split; [|lia].
  rewrite Hpos, list_insert_insert_eq. by apply list_insert_id.
Qed.

Lemma add_update_then_remove_restores_the_array_witness :
  let e := mkEnv 1000 200 3 (-10) [(3, 4); (0, 0); (9, 9)] 5 in
  let a := mkAction 0 1 5 6 in
  let b := mkAction 1 1 0 0 in
  wf e
  ∧ action_space_contains e a = true ∧ action_space_contains e b = true
  ∧ action_type a = ADD_UPDATE ∧ action_type b = REMOVE
  ∧ position b = position a
  ∧ state e !! Z.to_nat (position a) = Some sentinel
  ∧ ((x a, y a) ∉ state e) ∧ x a ≠ 0 ∧ y a ≠ 0
  ∧ ∃ e' r1 r2,
      run mock_compute_step is_present e [a; b] = Some (e', [r1; r2])
      ∧ state e' = state e
      ∧ step_counter e' = step_counter e + 2.
Proof.
  intros e a b.
  assert (Hfresh : (x a, y a) ∉ state e).
  { intros Hin. apply list_elem_of_In in Hin. simpl in Hin.
    destruct Hin as [H|[H|[H|[]]]]; discriminate H. }
  assert (Hx : x a ≠ 0) by discriminate.
  assert (Hy : y a ≠ 0) by discriminate.
  repeat (split; [first [reflexivity | exact Hfresh | exact Hx | exact Hy]|]).
  apply (add_update_then_remove_restores_the_array mock_compute_step
           is_present e a b eq_refl eq_refl eq_refl eq_refl eq_refl eq_refl
           eq_refl Hfresh Hx Hy).
  intros e0 p q Hq H1 H2. unfold is_present. rewrite Hq.
  apply Z.eqb_neq in H1. rewrite H1. reflexivity.
Defined.

(** X13: after an accepted REMOVE, a second REMOVE at the same position
    is rejected: it returns [invalid_test_reward] and the array keeps the
    cell cleared by the first call.  The parent's test is the one
    answering "a point" for the first call, and is assumed to answer "no
    point" on a cell holding (0,0). *)
Theorem remove_twice_second_rejected
    (compute_step : Env → Q * Q) (check_some : Env → Z → bool) e a :
  wf e → action_space_contains e a = true →
  action_type a = REMOVE →
  check_some (after e (state e)) (position a) = true →
  (∀ e0 p, state e0 !! Z.to_nat p = Some sentinel → check_some e0 p = false) →
  ∃ e' r1 r2,
    run compute_step check_some e [a; a] = Some (e', [r1; r2])
    ∧ reward r2 = invalid_test_reward e
    ∧ state e' = <[Z.to_nat (position a) := sentinel]> (state e)
    ∧ state e' !! Z.to_nat (position a) = Some sentinel.
Proof.
  intros Hwf Ha Hta Hp Hsent.
  pose proof (contains_position e a Hwf Ha) as Hlt.
  pose proof (step_remove_present compute_step check_some e a Hwf Ha Hta Hp)
    as Hs1. cbv zeta in Hs1.
  set (e1 := after e (<[Z.to_nat (position a) := (0, 0)]> (state e))) in *.
  assert (Hwf1 : wf e1).
  { apply wf_after; [by rewrite length_insert|done]. }
  assert (Hp1 : check_some (after e1 (state e1)) (position a) = false).
  { apply Hsent. by apply list_lookup_insert_eq. }
  pose proof (step_remove_absent compute_step check_some e1 a Hwf1 Ha Hta Hp1)
    as Hs2. cbv zeta in Hs2.
  eexists _, _, _. cbn [run]. rewrite Hs1, Hs2.
  split; [done|]. simpl. repeat split.
  by apply list_lookup_insert_eq.
Qed.

Lemma remove_twice_second_rejected_witness :
  let e := mkEnv 1000 200 3 (-10) [(3, 4); (0, 0); (9, 9)] 5 in
  let a := mkAction 1 2 0 0 in
  wf e
  ∧ action_space_contains e a = true
  ∧ action_type a = REMOVE
  ∧ is_present (after e (state e)) (position a) = true
  ∧ ∃ e' r1 r2,
      run mock_compute_step is_present e [a; a] = Some (e', [r1; r2])
      ∧ reward r2 = invalid_test_reward e
      ∧ state e' = <[Z.to_nat (position a) := sentinel]> (state e)
      ∧ state e' !! Z.to_nat (position a) = Some sentinel.
Proof.
  intros e a.
  repeat (split; [reflexivity|]).
  apply (remove_twice_second_rejected mock_compute_step is_present e a
           eq_refl eq_refl eq_refl eq_refl).
  intros e0 p Hp. unfold is_present. rewrite Hp. reflexivity.
Defined.

Lemma unique_present_tail p (st : list Point) :
  unique_present (p :: st) → unique_present st.
Proof.
  intros Hu i j q Hij Hi Hj. apply (Hu (S i) (S j) q); [lia|done|done].
Qed.

Lemma NoDup_cells_without_zero (st : list Point) :
  unique_present st →
  NoDup (filter (λ p : Point, p.1 ≠ 0 ∧ p.2 ≠ 0) st).
Proof.
  induction st as [|p st IH]; intros Hu; [constructor|].
  pose proof (IH (unique_present_tail _ _ Hu)) as IH'.
  destruct (decide (p.1 ≠ 0 ∧ p.2 ≠ 0)) as [Hp|Hp].
  - rewrite filter_cons_True by done. apply NoDup_cons. split; [|done].
    intros [_ (j & Hj)%list_elem_of_lookup]%list_elem_of_filter.
    assert (Hs : p = sentinel) by (apply (Hu 0%nat (S j) p); done).
    rewrite Hs in Hp. simpl in Hp. tauto.
  - by rewrite filter_cons_False.
Qed.

(** X15: the flat list built by [get_state_observation] determines the
    array: two environments with the same list of coordinates hold the
    same cells in the same order. *)
Theorem get_state_observation_determines_the_array e1 e2 :
  get_state_observation e1 = get_state_observation e2 →
  state e1 = state e2.
Proof.
  unfold get_state_observation.
  generalize (state e2). induction (state e1) as [|[x1 y1] st1 IH];
    intros [|[x2 y2] st2] H; try done.
  cbn [map concat app fst snd] in H.
  injection H as Hx Hy H. apply IH in H. by subst.
Qed.

Lemma get_state_observation_determines_the_array_witness :
  let e1 := mkEnv 1000 200 2 (-10) [(3, 4); (0, 0)] 1 in
  let e2 := mkEnv 5 100 2 (-1) [(3, 4); (0, 0)] 7 in
  get_state_observation e1 = get_state_observation e2
  ∧ state e1 = state e2.
Proof.
  intros e1 e2. split; [reflexivity|].
  apply (get_state_observation_determines_the_array e1 e2). reflexivity.
Defined.

(** X17: an accepted ADD_UPDATE that overwrites a cell holding a point
    frees the pair that cell held: when the points of the array are
    pairwise distinct, after the call no cell holds the old pair, so
    [check_coordinates_already_exist] answers False for it. *)
Theorem add_update_frees_the_overwritten_pair
    (compute_step : Env → Q * Q) (check_some : Env → Z → bool) e a
    (q : Point) :
  wf e → action_space_contains e a = true →
  action_type a = ADD_UPDATE → (x a, y a) ∉ state e →
  state e !! Z.to_nat (position a) = Some q → q ≠ sentinel →
  (∀ (i j : nat) (p : Point),
     i ≠ j → state e !! i = Some p → state e !! j = Some p → p = sentinel) →
  ∃ e' r,
    step compute_step check_some e a = Some (e', r)
    ∧ state e' !! Z.to_nat (position a) = Some (x a, y a)
    ∧ check_coordinates_already_exist e' q.1 q.2 = Some false.
Proof.
  intros Hwf Hc Ht Hfresh Hq Hne Hu.
  pose proof (contains_position e a Hwf Hc) as Hlt.
  pose proof (step_add_fresh compute_step check_some e a Hwf Hc Ht Hfresh)
    as Hs. cbv zeta in Hs.
  set (e' := after e (<[Z.to_nat (position a) := (x a, y a)]> (state e)))
    in *.
  assert (Hwf' : wf e').
  { apply wf_after; [by rewrite length_insert|done]. }
  eexists _, _. split; [exact Hs|].
  split; [by apply list_lookup_insert_eq|].
  destruct (check_coordinates_already_exist_spec e' q.1 q.2 Hwf')
    as (b & -> & Hb).
  f_equal. destruct b; [|done]. exfalso.
  destruct Hb as [Hb _]. specialize (Hb eq_refl).
  rewrite <- surjective_pairing in Hb.
  apply list_elem_of_lookup in Hb as (j & Hj).
  apply list_lookup_insert_Some in Hj as [(_ & Heq & _)|(Hjp & Hj)].
  - apply Hfresh. rewrite Heq. apply list_elem_of_lookup. by eexists.
  - apply Hne. by apply (Hu (Z.to_nat (position a)) j).
Qed.

Lemma add_update_frees_the_overwritten_pair_witness :
  let e := mkEnv 1000 200 2 (-10) [(3, 4); (0, 0)] 1 in
  let a := mkAction 0 0 8 8 in
  wf e ∧ action_space_contains e a = true
  ∧ action_type a = ADD_UPDATE ∧ ((x a, y a) ∉ state e)
  ∧ state e !! Z.to_nat (position a) = Some (3, 4) ∧ (3, 4) ≠ sentinel
  ∧ ∃ e' r,
      step mock_compute_step is_present e a = Some (e', r)
      ∧ state e' !! Z.to_nat (position a) = Some (x a, y a)
      ∧ check_coordinates_already_exist e' 3 4 = Some false.
Proof.
  intros e a.
  assert (Hfresh : (x a, y a) ∉ state e).
  { intros Hin. apply list_elem_of_In in Hin. simpl in Hin.
    destruct Hin as [H|[H|[]]]; discriminate H. }
  assert (Hne : (3, 4) ≠ sentinel) by discriminate.
  repeat (split; [first [reflexivity | exact Hfresh | exact Hne]|]).
  apply (add_update_frees_the_overwritten_pair mock_compute_step is_present
           e a (3, 4) eq_refl eq_refl eq_refl Hfresh eq_refl Hne).
  intros [|[|i]] [|[|j]] p Hij Hi Hj; simpl in Hi, Hj;
    try discriminate; try (by destruct Hij);
    injection Hi as <-; discriminate Hj.
Defined.

(** X18: right after [reset], whatever the environment was, an in-bounds
    ADD_UPDATE of a pair other than (0,0) is accepted and writes the
    only point of the array, while an in-bounds ADD_UPDATE of (0,0) is
    rejected with [invalid_test_reward] and leaves the array empty. *)
Theorem first_add_update_after_reset
    (compute_step : Env → Q * Q) (check_some : Env → Z → bool) e a :
  action_space_contains e a = true → action_type a = ADD_UPDATE →
  ∃ e' r,
    step compute_step check_some (reset e).1 a = Some (e', r)
    ∧ ((x a, y a) ≠ sentinel →
         state e' = <[Z.to_nat (position a) := (x a, y a)]>
                      (replicate (max_number_of_points e) sentinel)
         ∧ r = result e' (compute_step e').1 (compute_step e').2)
    ∧ ((x a, y a) = sentinel →
         state e' = replicate (max_number_of_points e) sentinel
         ∧ reward r = invalid_test_reward e).
Proof.
  intros Hc Ht.
  pose proof (wf_reset e) as Hwf.
  assert (Hc' : action_space_contains (reset e).1 a = true) by done.
  pose proof (contains_position _ a Hwf Hc') as Hlt.
  destruct (decide ((x a, y a) = sentinel)) as [Heq|Hne].
  - assert (Hin : (x a, y a) ∈ state (reset e).1).
    { rewrite Heq, reset_state. apply elem_of_replicate. split; [done|].
      rewrite reset_state, length_replicate in Hlt. lia. }
    eexists _, _.
    split; [by apply step_add_duplicate|]. split; [done|].
    intros _. by split.
  - assert (Hout : (x a, y a) ∉ state (reset e).1).
    { rewrite reset_state. by intros [? _]%elem_of_replicate. }
    eexists _, _.
    split; [by apply step_add_fresh|]. split; [|done].
    intros _. by split.
Qed.

Lemma first_add_update_after_reset_witness :
  let e := mkEnv 1000 200 3 (-10) [(3, 4); (0, 0); (9, 9)] 5 in
  let a := mkAction 0 1 3 4 in
  action_space_contains e a = true ∧ action_type a = ADD_UPDATE
  ∧ ∃ e' r,
      step mock_compute_step is_present (reset e).1 a = Some (e', r)
      ∧ ((x a, y a) ≠ sentinel →
           state e' = <[Z.to_nat (position a) := (x a, y a)]>
                        (replicate (max_number_of_points e) sentinel)
           ∧ r = result e' (mock_compute_step e').1 (mock_compute_step e').2)
      ∧ ((x a, y a) = sentinel →
           state e' = replicate (max_number_of_points e) sentinel
           ∧ reward r = invalid_test_reward e).
Proof.
  intros e a. split; [reflexivity|]. split; [reflexivity|].
  apply (first_add_update_after_reset mock_compute_step is_present e a);
    reflexivity.
Defined.

(** ** Rounding to binary64 *)

(** *** The exponent and the rounding of the significand *)

Lemma two_pow_pos z : (0 < Qpower 2 z)%Q.
Proof. by apply Qpower_0_lt. Qed.

Lemma Qpower2_nonneg z : 0 <= z -> (Qpower 2 z == inject_Z (2 ^ z))%Q.
Proof. intros. by rewrite Zpower_Qpower. Qed.

(** [Qfloor_log2] is the exponent of the binade of a positive number. *)
Lemma Qfloor_log2_spec a :
  (0 < a)%Q ->
  (Qpower 2 (Qfloor_log2 a) <= a /\ a < Qpower 2 (Qfloor_log2 a + 1))%Q.
Proof.
  intros Ha. unfold Qfloor_log2.
  destruct a as [n d]. cbn [Qnum Qden].
  assert (Hn : 0 < n). { unfold Qlt in Ha. simpl in Ha. lia. }
  set (kn := Z.log2 n). set (kd := Z.log2 (Z.pos d)).
  assert (Hkn : 2 ^ kn <= n < 2 ^ (kn + 1)).
  { pose proof (Z.log2_spec n Hn) as H. fold kn in H.
    by rewrite <- Z.add_1_r in H. }
  assert (Hkd : 2 ^ kd <= Z.pos d < 2 ^ (kd + 1)).
  { pose proof (Z.log2_spec (Z.pos d) ltac:(lia)) as H. fold kd in H.
    by rewrite <- Z.add_1_r in H. }
  assert (Hkn0 : 0 <= kn) by apply Z.log2_nonneg.
  assert (Hkd0 : 0 <= kd) by apply Z.log2_nonneg.
  assert (Hup : (n # d < Qpower 2 (kn - kd + 1))%Q).
  { replace (kn - kd + 1) with ((kn + 1) - kd) by lia.
    rewrite Qpower_minus by done.
    apply Qlt_shift_div_l; [apply two_pow_pos|].
    rewrite !Qpower2_nonneg by lia.
    unfold Qlt, Qmult, inject_Z. simpl.
    assert (0 < 2 ^ kd) by (apply Z.pow_pos_nonneg; lia). nia. }
  assert (Hlo : (Qpower 2 (kn - kd - 1) < n # d)%Q).
  { replace (kn - kd - 1) with (kn - (kd + 1)) by lia.
    rewrite Qpower_minus by done.
    apply Qlt_shift_div_r; [apply two_pow_pos|].
    rewrite !Qpower2_nonneg by lia.
    unfold Qlt, Qmult, inject_Z. simpl.
    assert (0 < 2 ^ kn) by (apply Z.pow_pos_nonneg; lia). nia. }
  destruct (Qle_bool (Qpower 2 (kn - kd)) (n # d)) eqn:E.
  - apply Qle_bool_iff in E. split; done.
  - split; [by apply Qlt_le_weak|].
    replace (kn - kd - 1 + 1) with (kn - kd) by lia.
    apply Qnot_le_lt. intros H. apply Qle_bool_iff in H. congruence.
Qed.

Lemma Qfloor_log2_unique a k :
  (0 < a)%Q -> (Qpower 2 k <= a)%Q -> (a < Qpower 2 (k + 1))%Q ->
  Qfloor_log2 a = k.
Proof.
  intros Ha Hlo Hhi. destruct (Qfloor_log2_spec a Ha) as [Hlo2 Hhi2].
  assert (H1 : Qfloor_log2 a < k + 1).
  { apply (Qpower_lt_compat_l_inv 2); [|done]. eapply Qle_lt_trans; eauto. }
  assert (H2 : k < Qfloor_log2 a + 1).
  { apply (Qpower_lt_compat_l_inv 2); [|done]. eapply Qle_lt_trans; eauto. }
  lia.
Qed.

Lemma Qfloor_log2_le a b :
  (0 < a)%Q -> (a <= b)%Q -> Qfloor_log2 a <= Qfloor_log2 b.
Proof.
  intros Ha Hab.
  assert (Hb : (0 < b)%Q) by (eapply Qlt_le_trans; eauto).
  destruct (Qfloor_log2_spec a Ha) as [Hlo _].
  destruct (Qfloor_log2_spec b Hb) as [_ Hhi].
  assert (H : Qfloor_log2 a < Qfloor_log2 b + 1).
  { apply (Qpower_lt_compat_l_inv 2); [|done].
    eapply Qle_lt_trans; [exact Hlo|]. eapply Qle_lt_trans; eauto. }
  lia.
Qed.

(** [round_half_even] is within one half of its argument, fixes the
    integers and is monotone. *)
Lemma round_half_even_bounds q :
  (inject_Z (round_half_even q) - (1#2) <= q
   /\ q <= inject_Z (round_half_even q) + (1#2))%Q.
Proof.
  unfold round_half_even.
  pose proof (Qfloor_le q) as Hf. pose proof (Qlt_floor q) as Hc.
  set (f := Qfloor q) in *.
  rewrite inject_Z_plus in Hc. change (inject_Z 1) with 1%Q in Hc.
  destruct (Qcompare_spec (q - inject_Z f) (1#2)) as [E|E|E].
  - destruct (Z.even f);
      [|rewrite inject_Z_plus; change (inject_Z 1) with 1%Q]; split; lra.
  - split; lra.
  - rewrite inject_Z_plus. change (inject_Z 1) with 1%Q. split; lra.
Qed.

Lemma round_half_even_Z (n : Z) q :
  (q == inject_Z n)%Q -> round_half_even q = n.
Proof.
  intros Hq. unfold round_half_even.
  assert (Hf : Qfloor q = n) by (rewrite Hq; apply Qfloor_Z).
  rewrite Hf.
  assert (E : (q - inject_Z n ?= 1 # 2)%Q = Lt).
  { apply Qlt_alt. rewrite Hq.
    assert (Hz : (inject_Z n - inject_Z n == 0)%Q) by ring.
    rewrite Hz. reflexivity. }
  by rewrite E.
Qed.

Lemma round_half_even_le a b :
  (a <= b)%Q -> round_half_even a <= round_half_even b.
Proof.
  intros Hab.
  pose proof (Qfloor_resp_le a b Hab) as Hf.
  unfold round_half_even.
  pose proof (Qfloor_le a) as Ha1. pose proof (Qlt_floor a) as Ha2.
  pose proof (Qfloor_le b) as Hb1. pose proof (Qlt_floor b) as Hb2.
  set (fa := Qfloor a) in *. set (fb := Qfloor b) in *.
  rewrite inject_Z_plus in Ha2, Hb2.
  change (inject_Z 1) with 1%Q in Ha2, Hb2.
  destruct (Z.eq_dec fa fb) as [E|E].
  - rewrite <- E in *.
    destruct (Qcompare_spec (a - inject_Z fa) (1#2)) as [E1|E1|E1];
    destruct (Qcompare_spec (b - inject_Z fa) (1#2)) as [E2|E2|E2];
    destruct (Z.even fa); try lia; exfalso; lra.
  - assert (fa + 1 <= fb) by lia.
    destruct (Qcompare_spec (a - inject_Z fa) (1#2)) as [E1|E1|E1];
    destruct (Qcompare_spec (b - inject_Z fb) (1#2)) as [E2|E2|E2];
    destruct (Z.even fa); destruct (Z.even fb); lia.
Qed.

Lemma Qpower2_add x y : (Qpower 2 (x + y) == Qpower 2 x * Qpower 2 y)%Q.
Proof. by apply Qpower_plus. Qed.

Lemma Qpower2_le x y : x <= y -> (Qpower 2 x <= Qpower 2 y)%Q.
Proof. intros. by apply Qpower_le_compat_l. Qed.

Lemma Qdiv_pow_le a b e : (a <= b)%Q -> (a / Qpower 2 e <= b / Qpower 2 e)%Q.
Proof.
  intros H. apply Qle_shift_div_l; [apply two_pow_pos|].
  unfold Qdiv. rewrite <- Qmult_assoc, (Qmult_comm (/ _)), Qmult_inv_r, Qmult_1_r.
  - done.
  - pose proof (two_pow_pos e). lra.
Qed.

(** Rounding is monotone. *)
Lemma float64_round_le a b :
  (0 < a)%Q -> (a <= b)%Q -> (float64_round a <= float64_round b)%Q.
Proof.
  intros Ha Hab.
  assert (Hb : (0 < b)%Q) by (eapply Qlt_le_trans; eauto).
  pose proof (Qfloor_log2_le a b Ha Hab) as Hk.
  destruct (Qfloor_log2_spec a Ha) as [_ Hahi].
  destruct (Qfloor_log2_spec b Hb) as [Hblo _].
  unfold float64_round.
  set (ea := Z.max (-1074) (Qfloor_log2 a - 52)).
  set (eb := Z.max (-1074) (Qfloor_log2 b - 52)).
  assert (Hea : ea <= eb) by lia.
  destruct (Z.eq_dec ea eb) as [E|E].
  - rewrite <- E. apply Qmult_le_r; [apply two_pow_pos|].
    rewrite <- Zle_Qle. apply round_half_even_le. by apply Qdiv_pow_le.
  - assert (Heb : eb = Qfloor_log2 b - 52) by lia.
    assert (Hma : round_half_even (a / Qpower 2 ea) <= 2 ^ 53).
    { apply Z.le_trans with (round_half_even (inject_Z (2 ^ 53)));
        [|by rewrite (round_half_even_Z (2 ^ 53))].
      apply round_half_even_le.
      apply Qle_shift_div_r; [apply two_pow_pos|].
      rewrite <- (Qpower2_nonneg 53), <- Qpower2_add by lia.
      apply Qlt_le_weak. eapply Qlt_le_trans; [exact Hahi|].
      apply Qpower2_le. lia. }
    assert (Hmb : 2 ^ 52 <= round_half_even (b / Qpower 2 eb)).
    { apply Z.le_trans with (round_half_even (inject_Z (2 ^ 52)));
        [by rewrite (round_half_even_Z (2 ^ 52))|].
      apply round_half_even_le.
      apply Qle_shift_div_l; [apply two_pow_pos|].
      rewrite <- (Qpower2_nonneg 52), <- Qpower2_add by lia.
      eapply Qle_trans; [|exact Hblo]. apply Qpower2_le. lia. }
    apply Qle_trans with (Qpower 2 (ea + 53)).
    + rewrite (Z.add_comm ea), Qpower2_add, (Qpower2_nonneg 53) by lia.
      apply Qmult_le_r; [apply two_pow_pos|]. by rewrite <- Zle_Qle.
    + apply Qle_trans with (Qpower 2 (52 + eb)).
      * apply Qpower2_le. lia.
      * rewrite Qpower2_add, (Qpower2_nonneg 52) by lia.
        apply Qmult_le_r; [apply two_pow_pos|]. by rewrite <- Zle_Qle.
Qed.

(** A number with a significand of at most 53 bits is not changed. *)
Lemma float64_round_exact a k j :
  0 < k < 2 ^ 53 -> -1074 <= j ->
  (a == inject_Z k * Qpower 2 j)%Q -> (float64_round a == a)%Q.
Proof.
  intros Hk Hj Ha.
  assert (Hpos : (0 < a)%Q).
  { rewrite Ha. apply Qmult_lt_0_compat; [|apply two_pow_pos].
    rewrite <- (Zlt_Qlt 0). lia. }
  pose proof (Z.log2_spec k ltac:(lia)) as Hlog.
  rewrite <- Z.add_1_r in Hlog.
  assert (Hl0 : 0 <= Z.log2 k) by apply Z.log2_nonneg.
  assert (Hl52 : Z.log2 k <= 52).
  { assert (Z.log2 k < 53); [|lia].
    apply Z.log2_lt_pow2; lia. }
  assert (Hfl : Qfloor_log2 a = Z.log2 k + j).
  { apply Qfloor_log2_unique; [done| |].
    - rewrite Ha, Qpower2_add, (Qpower2_nonneg (Z.log2 k)) by lia.
      apply Qmult_le_r; [apply two_pow_pos|]. rewrite <- Zle_Qle. lia.
    - rewrite Ha. replace (Z.log2 k + j + 1) with ((Z.log2 k + 1) + j) by lia.
      rewrite Qpower2_add, (Qpower2_nonneg (Z.log2 k + 1)) by lia.
      apply Qmult_lt_r; [apply two_pow_pos|]. rewrite <- Zlt_Qlt. lia. }
  unfold float64_round. rewrite Hfl.
  set (e := Z.max (-1074) (Z.log2 k + j - 52)).
  assert (He : e <= j) by lia.
  assert (Hq : (a / Qpower 2 e == inject_Z (k * 2 ^ (j - e)))%Q).
  { rewrite Ha, inject_Z_mult, <- (Qpower2_nonneg (j - e)) by lia.
    replace j with ((j - e) + e) at 1 by lia.
    rewrite Qpower2_add. field.
    pose proof (two_pow_pos e). lra. }
  rewrite (round_half_even_Z _ _ Hq).
  rewrite Ha, inject_Z_mult, <- (Qpower2_nonneg (j - e)) by lia.
  rewrite <- Qmult_assoc, <- Qpower2_add.
  by replace (j - e + e) with j by lia.
Qed.

Lemma float64_round_proper a b :
  (0 < a)%Q -> (a == b)%Q -> (float64_round a == float64_round b)%Q.
Proof.
  intros Ha Hab. assert (Hb : (0 < b)%Q) by by rewrite <- Hab.
  apply Qle_antisym; apply float64_round_le; try done; rewrite Hab; apply Qle_refl.
Qed.

Lemma float64_round_Z (n : Z) a :
  0 < n < 2 ^ 53 -> (a == inject_Z n)%Q -> (float64_round a == inject_Z n)%Q.
Proof.
  intros Hn Ha.
  assert (He : (float64_round a == a)%Q).
  { apply (float64_round_exact a n 0); [done|lia|].
    rewrite Ha. simpl. ring. }
  by rewrite He.
Qed.

(** Two numbers at least two grid steps apart round to numbers at least
    one grid step apart. *)
Lemma float64_round_gap x1 x2 j :
  -1074 <= j -> (0 < x1)%Q ->
  (x1 + 2 * Qpower 2 j <= x2)%Q -> (x2 < Qpower 2 (53 + j))%Q ->
  (float64_round x1 + Qpower 2 j <= float64_round x2)%Q.
Proof.
  intros Hj Hx1 Hgap Hx2.
  pose proof (two_pow_pos j) as Hp.
  set (k := Qceiling (x1 / Qpower 2 j)).
  assert (E : (x1 / Qpower 2 j * Qpower 2 j == x1)%Q) by (field; lra).
  assert (Hk1 : (x1 <= inject_Z k * Qpower 2 j)%Q).
  { pose proof (Qle_ceiling (x1 / Qpower 2 j)) as H. fold k in H.
    apply (Qmult_le_r _ _ (Qpower 2 j)) in H; [|done].
    by rewrite E in H. }
  assert (Hk2 : (inject_Z k * Qpower 2 j < x1 + Qpower 2 j)%Q).
  { pose proof (Qceiling_lt (x1 / Qpower 2 j)) as H. fold k in H.
    unfold Z.sub in H. rewrite inject_Z_plus, inject_Z_opp in H.
    change (inject_Z 1) with 1%Q in H.
    apply (Qmult_lt_r _ _ (Qpower 2 j)) in H; [|done].
    rewrite E, Qmult_plus_distr_l in H. clear E.
    generalize dependent (Qpower 2 j). intros P. intros.
    generalize dependent (inject_Z k * P)%Q. intros. lra. }
  assert (Hkpos : 0 < k).
  { rewrite Zlt_Qlt. apply (Qmult_lt_r _ _ (Qpower 2 j)); [done|].
    change (inject_Z 0) with 0%Q. rewrite Qmult_0_l. lra. }
  assert (Hk53 : k + 1 < 2 ^ 53).
  { rewrite Zlt_Qlt. apply (Qmult_lt_r _ _ (Qpower 2 j)); [done|].
    rewrite inject_Z_plus, <- (Qpower2_nonneg 53), <- Qpower2_add by lia.
    change (inject_Z 1) with 1%Q. rewrite Qmult_plus_distr_l.
    generalize dependent (Qpower 2 (53 + j)). intros P53.
    generalize dependent (Qpower 2 j). intros P. intros.
    generalize dependent (inject_Z k * P)%Q. intros. lra. }
  assert (Hy1 : (float64_round (inject_Z k * Qpower 2 j)
                 == inject_Z k * Qpower 2 j)%Q).
  { apply (float64_round_exact _ k j); [lia|done|reflexivity]. }
  assert (Hy2 : (float64_round (inject_Z (k + 1) * Qpower 2 j)
                 == inject_Z (k + 1) * Qpower 2 j)%Q).
  { apply (float64_round_exact _ (k + 1) j); [lia|done|reflexivity]. }
  assert (H1 : (float64_round x1 <= inject_Z k * Qpower 2 j)%Q).
  { rewrite <- Hy1. by apply float64_round_le. }
  assert (H2 : (inject_Z (k + 1) * Qpower 2 j <= float64_round x2)%Q).
  { rewrite <- Hy2. apply float64_round_le.
    - apply Qmult_lt_0_compat; [|done]. rewrite <- (Zlt_Qlt 0). lia.
    - rewrite inject_Z_plus. change (inject_Z 1) with 1%Q.
      rewrite Qmult_plus_distr_l.
      generalize dependent (Qpower 2 j). intros P. intros.
      generalize dependent (inject_Z k * P)%Q. intros. lra. }
  rewrite inject_Z_plus in H2. change (inject_Z 1) with 1%Q in H2.
  rewrite Qmult_plus_distr_l in H2.
  generalize dependent (Qpower 2 j). intros P. intros.
  generalize dependent (inject_Z k * P)%Q. intros. lra.
Qed.

(** The relative error of rounding a number of the normal range: at
    most 2^-53. *)
Lemma float64_round_error_from k a :
  -1022 <= k -> (Qpower 2 k <= a)%Q ->
  (a * (9007199254740991 # 9007199254740992) <= float64_round a
   /\ float64_round a <= a * (9007199254740993 # 9007199254740992))%Q.
Proof.
  intros Hk1 Ha.
  assert (Hpos : (0 < a)%Q).
  { eapply Qlt_le_trans; [apply (two_pow_pos k)|done]. }
  destruct (Qfloor_log2_spec a Hpos) as [Hlo _].
  assert (Hk : k <= Qfloor_log2 a).
  { assert (E : Qfloor_log2 (Qpower 2 k) = k).
    { apply Qfloor_log2_unique; [apply two_pow_pos|apply Qle_refl|].
      rewrite Qpower2_add. change (Qpower 2 1) with 2%Q.
      pose proof (two_pow_pos k). lra. }
    rewrite <- E. apply Qfloor_log2_le; [apply two_pow_pos|done]. }
  unfold float64_round.
  replace (Z.max (-1074) (Qfloor_log2 a - 52)) with (Qfloor_log2 a - 52) by lia.
  set (e := Qfloor_log2 a - 52).
  pose proof (two_pow_pos e) as Hp.
  pose proof (round_half_even_bounds (a / Qpower 2 e)) as [B1 B2].
  set (m := inject_Z (round_half_even (a / Qpower 2 e))) in *.
  assert (E : (a / Qpower 2 e * Qpower 2 e == a)%Q) by (field; lra).
  apply (Qmult_le_r _ _ (Qpower 2 e)) in B1, B2; try done.
  rewrite E in B1, B2.
  assert (He : (Qpower 2 e * (1 # 2) <= a * Qpower 2 (-53))%Q).
  { replace e with (Qfloor_log2 a + (-53) + 1) by lia.
    rewrite !Qpower2_add. change (Qpower 2 1) with 2%Q.
    pose proof (two_pow_pos (-53)) as Hp53.
    assert (H : (Qpower 2 (Qfloor_log2 a) * Qpower 2 (-53)
                 <= a * Qpower 2 (-53))%Q) by by apply Qmult_le_r.
    lra. }
  change (Qpower 2 (-53)) with (1 # 9007199254740992)%Q in He.
  split; lra.
Qed.

Lemma float64_round_error a :
  (1 # 32 <= a)%Q ->
  (a * (9007199254740991 # 9007199254740992) <= float64_round a
   /\ float64_round a <= a * (9007199254740993 # 9007199254740992))%Q.
Proof. intros Ha. by apply (float64_round_error_from (-5)). Qed.

(** A number close enough to an integer rounds to it. *)
Lemma float64_round_to_Z q (n : Z) :
  (1 <= q)%Q -> (q < Qpower 2 53)%Q ->
  (inject_Z n - q < q * Qpower 2 (-54))%Q ->
  (q - inject_Z n < q * Qpower 2 (-54))%Q ->
  (float64_round q == inject_Z n)%Q.
Proof.
  intros Hq1 Hq53 Hd1 Hd2. assert (Hpos : (0 < q)%Q) by lra.
  destruct (Qfloor_log2_spec q Hpos) as [Hlo Hhi].
  assert (Hk0 : 0 <= Qfloor_log2 q).
  { apply (Qfloor_log2_le 1 q) in Hq1; [|reflexivity]. by vm_compute in Hq1 |- *. }
  assert (Hk52 : Qfloor_log2 q < 53).
  { apply (Qpower_lt_compat_l_inv 2); [|done]. eapply Qle_lt_trans; eauto. }
  unfold float64_round.
  replace (Z.max (-1074) (Qfloor_log2 q - 52)) with (Qfloor_log2 q - 52) by lia.
  set (e := Qfloor_log2 q - 52).
  pose proof (two_pow_pos e) as Hp.
  (* q * 2^-54 < 2^(e-1) *)
  assert (Hs : (q * Qpower 2 (-54) < Qpower 2 e * (1 # 2))%Q).
  { replace e with (Qfloor_log2 q + 1 + (-54) + 1) by lia.
    rewrite (Qpower2_add _ 1), (Qpower2_add _ (-54)).
    change (Qpower 2 1) with 2%Q.
    pose proof (two_pow_pos (-54)) as Hp54.
    assert (H : (q * Qpower 2 (-54)
                 < Qpower 2 (Qfloor_log2 q + 1) * Qpower 2 (-54))%Q)
      by by apply Qmult_lt_r.
    lra. }
  (* n = N * 2^e with N integer *)
  assert (HN : (inject_Z n == inject_Z (n * 2 ^ (- e)) * Qpower 2 e)%Q).
  { rewrite inject_Z_mult, <- (Qpower2_nonneg (- e)), <- Qmult_assoc,
      <- Qpower2_add by lia.
    replace (- e + e) with 0 by lia. simpl. ring. }
  set (N := n * 2 ^ (- e)) in *.
  pose proof (round_half_even_bounds (q / Qpower 2 e)) as [B1 B2].
  set (m := round_half_even (q / Qpower 2 e)) in *.
  assert (E : (q / Qpower 2 e * Qpower 2 e == q)%Q) by (field; lra).
  apply (Qmult_le_r _ _ (Qpower 2 e)) in B1, B2; try done.
  rewrite E in B1, B2.
  assert (HNa : (inject_Z n <= inject_Z N * Qpower 2 e)%Q)
    by (rewrite <- HN; apply Qle_refl).
  assert (HNb : (inject_Z N * Qpower 2 e <= inject_Z n)%Q)
    by (rewrite <- HN; apply Qle_refl).
  clear E Hq53 Hlo Hhi HN.
  generalize dependent (q * Qpower 2 (-54))%Q. intros qe. intros.
  generalize dependent (Qpower 2 e). intros P. intros.
  assert (Hm : m = N).
  { assert (H1 : (inject_Z m * P < inject_Z (N + 1) * P)%Q).
    { rewrite inject_Z_plus. change (inject_Z 1) with 1%Q.
      rewrite Qmult_plus_distr_l. lra. }
    assert (H2 : (inject_Z (N - 1) * P < inject_Z m * P)%Q).
    { unfold Z.sub. rewrite inject_Z_plus, inject_Z_opp.
      change (inject_Z 1) with 1%Q.
      rewrite Qmult_plus_distr_l. lra. }
    apply Qmult_lt_r in H1, H2; try done.
    rewrite <- Zlt_Qlt in H1, H2. lia. }
  rewrite Hm. apply Qle_antisym; done.
Qed.

(** *** The operations of the code on numbers of the normal range *)

Lemma float64_max_large : (inject_Z (2 ^ 60) <= float64_max)%Q.
Proof. unfold float64_max. rewrite <- Zle_Qle. by vm_compute. Qed.

(** Conversion of a positive number below 2^53: the rounded value. *)
Lemma float64_of_Q_pos q :
  (0 < q)%Q -> (q <= inject_Z (2 ^ 52))%Q ->
  float64_of_Q q = F64 (Qred (float64_round q)).
Proof.
  intros Hpos Hle. unfold float64_of_Q.
  assert (E0 : Qeq_bool q 0 = false).
  { apply not_true_is_false. rewrite Qeq_bool_iff. intros H. rewrite H in Hpos.
    by apply Qlt_irrefl in Hpos. }
  assert (E1 : Qle_bool q 0 = false).
  { apply not_true_is_false. rewrite Qle_bool_iff. intros H.
    by apply Qlt_not_le in Hpos. }
  assert (Ea : Qabs q = q).
  { destruct q as [n d]. unfold Qabs. f_equal. apply Z.abs_eq.
    unfold Qlt in Hpos. simpl in Hpos. lia. }
  rewrite E0, E1, Ea. cbn zeta.
  assert (E2 : Qle_bool (float64_round q) float64_max = true).
  { apply Qle_bool_iff. eapply Qle_trans; [|apply float64_max_large].
    eapply Qle_trans; [apply (float64_round_le q (inject_Z (2 ^ 52)) Hpos Hle)|].
    rewrite (float64_round_Z (2 ^ 52)); [|lia|reflexivity].
    rewrite <- Zle_Qle. lia. }
  by rewrite E2.
Qed.

Lemma float64_of_Q_pos_val q r :
  (0 < q)%Q -> (q <= inject_Z (2 ^ 52))%Q -> (float64_round q == r)%Q ->
  ∃ v, float64_of_Q q = F64 v ∧ (v == r)%Q.
Proof.
  intros Hpos Hle Hr. exists (Qred (float64_round q)).
  split; [by apply float64_of_Q_pos|]. by rewrite Qred_correct.
Qed.

(** Integers below 2^52 are floats. *)
Lemma float64_of_Z_exact d :
  0 <= d < 2 ^ 52 ->
  ∃ v, float64_of_Z d = F64 v ∧ (v == inject_Z d)%Q.
Proof.
  intros Hd. destruct (Z.eq_dec d 0) as [->|Hne].
  - exists 0%Q. split; reflexivity.
  - apply float64_of_Q_pos_val.
    + rewrite <- (Zlt_Qlt 0). lia.
    + rewrite <- Zle_Qle. lia.
    + apply float64_round_Z; [lia|reflexivity].
Qed.


Section Range.

Variables g : Z.
Hypothesis Hg : 1 <= g <= 10 ^ 14.

(** The sizes of the intermediate results. *)
Lemma width_Q_bounds : (1 # 32 <= width_Q g /\ width_Q g <= inject_Z g)%Q.
Proof.
  unfold width_Q.
  assert (Hq : (1 # 20 <= inject_Z g / 20)%Q).
  { apply Qle_shift_div_l; [reflexivity|].
    assert (H : (inject_Z 1 <= inject_Z g)%Q) by (rewrite <- Zle_Qle; lia).
    change (inject_Z 1) with 1%Q in H. lra. }
  assert (Hq2 : (inject_Z g / 20 <= inject_Z g)%Q).
  { apply Qle_shift_div_r; [reflexivity|].
    assert (H : (inject_Z 1 <= inject_Z g)%Q) by (rewrite <- Zle_Qle; lia).
    change (inject_Z 1) with 1%Q in H. lra. }
  split.
  - assert (E : (float64_round (1 # 32) == 1 # 32)%Q).
    { apply (float64_round_exact _ 1 (-5)); [lia|lia|reflexivity]. }
    rewrite <- E. apply float64_round_le; [reflexivity|lra].
  - rewrite <- (float64_round_Z g (inject_Z g)) at 2; [|lia|reflexivity].
    apply float64_round_le; [lra|done].
Qed.


Lemma sum_Q_bounds d :
  0 <= d < 9 * g ->
  (1 # 32 <= inject_Z d + width_Q g
   /\ inject_Z d + width_Q g <= inject_Z (10 * g)
   /\ 1 # 32 <= sum_Q g d /\ sum_Q g d <= inject_Z (10 * g))%Q.
Proof.
  intros Hd. destruct width_Q_bounds as [Hw1 Hw2].
  assert (H0 : (0 <= inject_Z d)%Q) by (rewrite <- (Zle_Qle 0); lia).
  assert (H9 : (inject_Z d + inject_Z g <= inject_Z (10 * g))%Q).
  { rewrite <- inject_Z_plus, <- Zle_Qle. lia. }
  assert (Hx1 : (1 # 32 <= inject_Z d + width_Q g)%Q) by lra.
  assert (Hx2 : (inject_Z d + width_Q g <= inject_Z (10 * g))%Q) by lra.
  split; [done|]. split; [done|]. unfold sum_Q. split.
  - assert (E : (float64_round (1 # 32) == 1 # 32)%Q).
    { apply (float64_round_exact _ 1 (-5)); [lia|lia|reflexivity]. }
    rewrite <- E. apply float64_round_le; [reflexivity|done].
  - rewrite <- (float64_round_Z (10 * g) (inject_Z (10 * g)));
      [|lia|reflexivity].
    apply float64_round_le; [lra|done].
Qed.

(** Neighbouring coordinates are one apart; their sums with the width
    of the buffer, rounded, are at least one half apart, and the rounded
    tenths of these at least 2^-6 apart. *)
Lemma to_continuous_Q_lt d1 d2 :
  0 <= d1 -> d1 < d2 -> d2 < 9 * g ->
  (to_continuous_Q g d1 < to_continuous_Q g d2)%Q.
Proof.
  intros H1 H12 H2.
  destruct (sum_Q_bounds d1) as (Hx1 & _ & Hs1 & _); [lia|].
  destruct (sum_Q_bounds d2) as (_ & Hx2 & _ & Hs2); [lia|].
  assert (Hg10 : (inject_Z (10 * g) <= inject_Z (10 ^ 15))%Q)
    by (rewrite <- Zle_Qle; lia).
  assert (Hgap1 : (sum_Q g d1 + Qpower 2 (-1) <= sum_Q g d2)%Q).
  { unfold sum_Q. apply float64_round_gap; [lia|lra| |].
    - assert (H : (inject_Z d1 + 1 <= inject_Z d2)%Q).
      { change 1%Q with (inject_Z 1). rewrite <- inject_Z_plus, <- Zle_Qle. lia. }
      change (Qpower 2 (-1)) with (1 # 2)%Q. lra.
    - eapply Qle_lt_trans; [exact Hx2|]. eapply Qle_lt_trans; [exact Hg10|].
      rewrite (Qpower2_nonneg (53 + -1)), <- Zlt_Qlt by lia. by vm_compute. }
  change (Qpower 2 (-1)) with (1 # 2)%Q in Hgap1.
  assert (Hgap2 : (to_continuous_Q g d1 + Qpower 2 (-6)
                   <= to_continuous_Q g d2)%Q).
  { unfold to_continuous_Q. apply float64_round_gap; [lia| | |].
    - apply Qlt_shift_div_l; [reflexivity|]. lra.
    - change (Qpower 2 (-6)) with (1 # 64)%Q.
      unfold Qdiv. change (/ 10)%Q with (1 # 10)%Q. lra.
    - apply Qlt_shift_div_r; [reflexivity|].
      eapply Qle_lt_trans; [exact Hs2|]. eapply Qle_lt_trans; [exact Hg10|].
      rewrite (Qpower2_nonneg (53 + -6)) by lia.
      change 10%Q with (inject_Z 10). rewrite <- inject_Z_mult, <- Zlt_Qlt.
      by vm_compute. }
  change (Qpower 2 (-6)) with (1 # 64)%Q in Hgap2. lra.
Qed.

(** On these grids no operation of the conversion overflows. *)
Lemma to_continuous_float64_val d :
  0 <= d < 9 * g ->
  ∃ v, to_continuous_float64 g d = F64 v ∧ (v == to_continuous_Q g d)%Q.
Proof.
  intros Hd. unfold to_continuous_float64, map_buffer_area_width_float64.
  destruct (float64_of_Z_exact d) as (vd & -> & Hvd); [lia|].
  destruct width_Q_bounds as [Hw1 Hw2].
  destruct (sum_Q_bounds d Hd) as (Hx1 & Hx2 & Hs1 & Hs2).
  assert (Hg52 : (inject_Z (10 * g) <= inject_Z (2 ^ 52))%Q)
    by (rewrite <- Zle_Qle; lia).
  assert (Hgg : (inject_Z g <= inject_Z (10 * g))%Q)
    by (rewrite <- Zle_Qle; lia).
  destruct (float64_of_Q_pos_val (inject_Z g / 20) (width_Q g))
    as (vw & -> & Hvw); [| |reflexivity|].
  { apply Qlt_shift_div_l; [reflexivity|].
    assert (H : (inject_Z 1 <= inject_Z g)%Q) by (rewrite <- Zle_Qle; lia).
    change (inject_Z 1) with 1%Q in H. lra. }
  { apply Qle_shift_div_r; [reflexivity|].
    assert (H : (inject_Z 1 <= inject_Z g)%Q) by (rewrite <- Zle_Qle; lia).
    change (inject_Z 1) with 1%Q in H. lra. }
  cbn [float64_add].
  assert (Hsum : (vd + vw == inject_Z d + width_Q g)%Q) by by rewrite Hvd, Hvw.
  destruct (float64_of_Q_pos_val (vd + vw) (sum_Q g d)) as (vs & -> & Hvs).
  { rewrite Hsum. lra. }
  { rewrite Hsum. lra. }
  { unfold sum_Q. apply float64_round_proper; [|done]. rewrite Hsum. lra. }
  cbn [float64_div_Z]. change (10 =? 0) with false. cbn iota.
  change (inject_Z 10) with 10%Q.
  assert (Hq : (vs / 10 == sum_Q g d / 10)%Q) by by rewrite Hvs.
  apply float64_of_Q_pos_val.
  - rewrite Hq. apply Qlt_shift_div_l; [reflexivity|]. lra.
  - rewrite Hq. apply Qle_shift_div_r; [reflexivity|]. lra.
  - unfold to_continuous_Q. apply float64_round_proper; [|done].
    rewrite Hq. apply Qlt_shift_div_l; [reflexivity|]. lra.
Qed.

(** Strictly increasing, hence injective. *)
Lemma to_continuous_float64_lt d1 d2 :
  0 <= d1 -> d1 < d2 -> d2 < 9 * g ->
  ∃ v1 v2, to_continuous_float64 g d1 = F64 v1
           ∧ to_continuous_float64 g d2 = F64 v2 ∧ (v1 < v2)%Q.
Proof.
  intros H1 H12 H2.
  destruct (to_continuous_float64_val d1) as (v1 & E1 & Hv1); [lia|].
  destruct (to_continuous_float64_val d2) as (v2 & E2 & Hv2); [lia|].
  exists v1, v2. split; [done|]. split; [done|].
  rewrite Hv1, Hv2. by apply to_continuous_Q_lt.
Qed.

End Range.

(** The float the conversion returns is the exact quotient
    (d + grid_size/20)/10 up to a relative error of 2^-51: three
    roundings. *)
Lemma to_continuous_Q_close g d :
  1 <= g <= 10 ^ 14 -> 0 <= d < 9 * g ->
  let r := ((inject_Z d + inject_Z g / 20) / 10)%Q in
  (r * (1 - (1 # 2251799813685248)) <= to_continuous_Q g d
   /\ to_continuous_Q g d <= r * (1 + (1 # 2251799813685248)))%Q.
Proof.
  intros Hg Hd r.
  assert (H0 : (0 <= inject_Z d)%Q) by (rewrite <- (Zle_Qle 0); lia).
  assert (Hg1 : (1 <= inject_Z g)%Q).
  { change 1%Q with (inject_Z 1). rewrite <- Zle_Qle. lia. }
  assert (Er : (r == (inject_Z d + inject_Z g * (1 # 20)) * (1 # 10))%Q)
    by reflexivity.
  destruct (float64_round_error_from (-5) (inject_Z g / 20)) as [W1 W2];
    [lia| |].
  { change (Qpower 2 (-5)) with (1 # 32)%Q.
    apply Qle_shift_div_l; [reflexivity|]. lra. }
  assert (EW : (inject_Z g / 20 == inject_Z g * (1 # 20))%Q) by reflexivity.
  fold (width_Q g) in W1, W2. rewrite EW in W1, W2.
  destruct (float64_round_error_from (-5) (inject_Z d + width_Q g))
    as [S1 S2]; [lia| |].
  { change (Qpower 2 (-5)) with (1 # 32)%Q. lra. }
  fold (sum_Q g d) in S1, S2.
  assert (ET : (sum_Q g d / 10 == sum_Q g d * (1 # 10))%Q) by reflexivity.
  destruct (float64_round_error_from (-9) (sum_Q g d / 10)) as [T1 T2];
    [lia| |].
  { change (Qpower 2 (-9)) with (1 # 512)%Q. rewrite ET. lra. }
  fold (to_continuous_Q g d) in T1, T2. rewrite ET in T1, T2.
  rewrite Er.
  generalize dependent (to_continuous_Q g d). intros T.
  generalize dependent (sum_Q g d). intros S.
  generalize dependent (width_Q g). intros W.
  intros. split; lra.
Qed.

(** The three roundings that lead to the bound of the coordinates move
    it by less than half a unit in the last place of the result, which
    is the integer 9 * grid_size. *)
Lemma number_of_discrete_coords_float64_val g :
  1 <= g <= 10 ^ 14 ->
  ∃ v, number_of_discrete_coords_float64 g = F64 v
       ∧ (v == inject_Z (9 * g))%Q.
Proof.
  intros Hg. unfold number_of_discrete_coords_float64,
    map_buffer_area_width_float64.
  assert (Hg1 : (1 <= inject_Z g)%Q).
  { change 1%Q with (inject_Z 1). rewrite <- Zle_Qle. lia. }
  assert (Hg14 : (inject_Z g <= inject_Z (10 ^ 14))%Q)
    by (rewrite <- Zle_Qle; lia).
  assert (H52 : (inject_Z (10 ^ 15) <= inject_Z (2 ^ 52))%Q)
    by (rewrite <- Zle_Qle; by vm_compute).
  change (inject_Z (10 ^ 14)) with (100000000000000 # 1)%Q in Hg14.
  change (inject_Z (10 ^ 15)) with (1000000000000000 # 1)%Q in H52.
  set (G := inject_Z g) in *.
  (* A = fl(g / 20) *)
  destruct (float64_round_error (G / 20)) as [A1 A2].
  { apply Qle_shift_div_l; [reflexivity|]. lra. }
  set (A := float64_round (G / 20)) in *.
  assert (EA : (G / 20 == G * (1 # 20))%Q) by (unfold Qdiv; reflexivity).
  rewrite EA in A1, A2.
  destruct (float64_of_Q_pos_val (G / 20) A) as (vA & -> & HvA);
    [rewrite EA; lra|rewrite EA; lra|reflexivity|].
  (* W = fl(A * 10) *)
  cbn [float64_mul_Z]. change (inject_Z 10) with 10%Q.
  destruct (float64_round_error (A * 10)) as [W1 W2]; [lra|].
  set (W := float64_round (A * 10)) in *.
  assert (EW : (vA * 10 == A * 10)%Q) by by rewrite HvA.
  destruct (float64_of_Q_pos_val (vA * 10) W) as (vW & -> & HvW);
    [rewrite EW; lra|rewrite EW; lra| |].
  { apply float64_round_proper; [rewrite EW; lra|done]. }
  (* T = fl(W * 2) *)
  cbn [float64_mul_Z]. change (inject_Z 2) with 2%Q.
  destruct (float64_round_error (W * 2)) as [T1 T2]; [lra|].
  set (T := float64_round (W * 2)) in *.
  assert (ET : (vW * 2 == W * 2)%Q) by by rewrite HvW.
  destruct (float64_of_Q_pos_val (vW * 2) T) as (vT & -> & HvT);
    [rewrite ET; lra|rewrite ET; lra| |].
  { apply float64_round_proper; [rewrite ET; lra|done]. }
  cbn [float64_neg].
  destruct (float64_of_Z_exact (g * 10)) as (v10 & -> & Hv10); [lia|].
  rewrite inject_Z_mult in Hv10. fold G in Hv10.
  change (inject_Z 10) with 10%Q in Hv10.
  cbn [float64_add].
  assert (Eq : (v10 + Qred (- vT) == G * 10 - T)%Q).
  { rewrite Qred_correct, Hv10, HvT. ring. }
  assert (E9 : (inject_Z (9 * g) == G * 9)%Q).
  { rewrite inject_Z_mult. unfold G. ring. }
  assert (Hq1 : (G * 8 <= G * 10 - T)%Q) by lra.
  assert (Hq2 : (G * 10 - T <= G * 10)%Q) by lra.
  apply float64_of_Q_pos_val.
  - rewrite Eq. lra.
  - rewrite Eq. lra.
  - assert (Hr : (float64_round (G * 10 - T) == inject_Z (9 * g))%Q).
    { apply float64_round_to_Z.
      - lra.
      - rewrite (Qpower2_nonneg 53) by lia.
        change (inject_Z (2 ^ 53)) with (9007199254740992 # 1)%Q. lra.
      - rewrite E9. change (Qpower 2 (-54)) with (1 # 18014398509481984)%Q. lra.
      - rewrite E9. change (Qpower 2 (-54)) with (1 # 18014398509481984)%Q. lra. }
    rewrite <- Hr. apply float64_round_proper; [rewrite Eq; lra|done].
Qed.

(** *** The definitions above against the floats of the machine *)

(** On the default grid the conversion computed with [float64_of_Q] is,
    for each of the 1800 coordinates, the number the hardware computes. *)
Lemma to_continuous_float64_agrees_on_default_grid :
  forallb (λ d, float64_agrees (to_continuous_float64 200 d)
                               (to_continuous_binary64 200 d))
          (map Z.of_nat (seq 0 1800)) = true.
Proof. by vm_compute. Qed.

(** So is it at the two neighbours that a grid of size 10^16 merges, and
    at the ends of the range of a grid of size 10^14. *)
Lemma to_continuous_float64_agrees_on_large_grids :
  forallb (λ gd : Z * Z,
             float64_agrees (to_continuous_float64 gd.1 gd.2)
                            (to_continuous_binary64 gd.1 gd.2))
          [(10 ^ 16, 9 * 10 ^ 16 - 2); (10 ^ 16, 9 * 10 ^ 16 - 1);
           (10 ^ 14, 0); (10 ^ 14, 1); (10 ^ 14, 9 * 10 ^ 14 - 2);
           (10 ^ 14, 9 * 10 ^ 14 - 1)] = true.
Proof. by vm_compute. Qed.

(** So is the bound of the coordinates, here for the grid sizes 1 to
    400 and for four large ones. *)
Lemma number_of_discrete_coords_float64_agrees :
  forallb (λ g, float64_agrees (number_of_discrete_coords_float64 g)
                               (number_of_discrete_coords_binary64 g))
          (map Z.of_nat (seq 1 400)
           ++ [10 ^ 14; 10 ^ 16; 10 ^ 17 + 1; 10 ^ 17 + 7]) = true.
Proof. by vm_compute. Qed.

(** Beyond 10^14 the bound of the coordinates is not always nine times
    the grid size. *)
Lemma coordinate_bound_float64_large_grids :
  coordinate_bound_float64 (10 ^ 17 + 1) = Some (9 * 10 ^ 17)
  ∧ coordinate_bound_float64 (10 ^ 17 + 7) = Some (9 * 10 ^ 17 + 128).
Proof. by vm_compute. Qed.

Lemma int64_of_Q_inject_Z (v : Q) (n : Z) :
  (v == inject_Z n)%Q → int64_of_Q v = n.
Proof.
  unfold Qeq, int64_of_Q. simpl. rewrite Z.mul_1_r. intros ->.
  by rewrite Z.quot_mul.
Qed.

(** For grid sizes from 1 to 10^14 the bound the constructor computes in
    floats is the exact one, nine times the grid size. *)
Lemma coordinate_bound_float64_exact g :
  1 ≤ g ≤ 10 ^ 14 → coordinate_bound_float64 g = Some (9 * g).
Proof.
  intros Hg. unfold coordinate_bound_float64.
  destruct (number_of_discrete_coords_float64_val g Hg) as (v & -> & Hv).
  f_equal. by apply int64_of_Q_inject_Z.
Qed.

Lemma to_continuous_float64_eqb_neq g (d1 d2 : Z) :
  1 ≤ g ≤ 10 ^ 14 →
  0 ≤ d1 < 9 * g → 0 ≤ d2 < 9 * g → d1 ≠ d2 →
  float64_eqb (to_continuous_float64 g d1) (to_continuous_float64 g d2)
  = false
  ∧ to_continuous_float64 g d1 ≠ to_continuous_float64 g d2.
Proof.
  intros Hg H1 H2 Hne.
  destruct (Z.lt_total d1 d2) as [Hlt|[Heq|Hlt]]; [|done|].
  - destruct (to_continuous_float64_lt g Hg d1 d2)
      as (v1 & v2 & -> & -> & Hv); [lia|done|lia|].
    split.
    + apply not_true_is_false. cbn [float64_eqb]. rewrite Qeq_bool_iff.
      intros Heq. rewrite Heq in Hv. by apply Qlt_irrefl in Hv.
    + intros [= Heq]. rewrite Heq in Hv. by apply Qlt_irrefl in Hv.
  - destruct (to_continuous_float64_lt g Hg d2 d1)
      as (v2 & v1 & -> & -> & Hv); [lia|done|lia|].
    split.
    + apply not_true_is_false. cbn [float64_eqb]. rewrite Qeq_bool_iff.
      intros Heq. rewrite Heq in Hv. by apply Qlt_irrefl in Hv.
    + intros [= Heq]. rewrite Heq in Hv. by apply Qlt_irrefl in Hv.
Qed.

(** [get_road_points] with its floats keeps the same cells, in the same
    order, as with exact numbers. *)
Lemma get_road_points_float64_from_seq e m : ∀ k road_points,
  (k + m)%nat = length (state e) →
  get_road_points_float64_from e (seq k m) road_points
  = Some (road_points
          ++ map (λ p : Point, (to_continuous_float64 (grid_size e) p.1,
                                to_continuous_float64 (grid_size e) p.2))
                 (filter (λ p : Point, p.1 ≠ 0 ∧ p.2 ≠ 0)
                         (drop k (state e)))).
Proof.
  induction m as [|m IH]; intros k acc Hk;
    cbn [seq get_road_points_float64_from].
  - rewrite drop_ge by lia. by rewrite app_nil_r.
  - destruct (lookup_lt_is_Some_2 (state e) k) as [p Hp]; [lia|].
    rewrite Hp, (drop_S _ _ _ Hp).
    destruct (negb (p.1 =? 0) && negb (p.2 =? 0)) eqn:E;
      rewrite IH by lia.
    + rewrite filter_cons_True.
      * by rewrite <- app_assoc.
      * apply andb_true_iff in E as [E1 E2].
        apply negb_true_iff in E1, E2. by apply Z.eqb_neq in E1, E2.
    + rewrite filter_cons_False; [done|]. intros [H1 H2].
      apply Z.eqb_neq in H1, H2. by rewrite H1, H2 in E.
Qed.

Lemma get_road_points_float64_spec e :
  wf e →
  get_road_points_float64 e
  = Some (map (λ p : Point, (to_continuous_float64 (grid_size e) p.1,
                             to_continuous_float64 (grid_size e) p.2))
              (filter (λ p : Point, p.1 ≠ 0 ∧ p.2 ≠ 0) (state e))).
Proof.
  intros Hwf. unfold get_road_points_float64.
  by rewrite get_road_points_float64_from_seq by (by rewrite Hwf).
Qed.

Lemma lookup_map_Some {A B} (f : A → B) (l : list A) (i : nat) (y : B) :
  map f l !! i = Some y → ∃ x, l !! i = Some x ∧ y = f x.
Proof.
  revert i. induction l as [|x l IH]; intros [|i] H; try done.
  - injection H as <-. by exists x.
  - by apply IH.
Qed.

(** ** The width of the observation, on the code *)

(** C4: with [grid_size] 228 the coordinate 2049 is in the action space
    (the bound the constructor computes is 2052), and whatever the
    evaluator returns, the call that stores (2049, 1) in cell 0 returns
    an observation whose entry for that coordinate is 2048: its
    coordinate entries are those returned for the different array that
    holds (2048, 1).  The float16 of the observation does not tell
    distinct coordinates apart. *)
Theorem float16_observation_reports_2048_for_2049
    (compute_step : Env → Q * Q) (check_some : Env → Z → bool) :
  let e := init 1000 228 2 (-10) in
  coordinate_bound_float64 (grid_size e) = Some 2052
  ∧ action_space_contains e (mkAction 0 0 2049 1) = true
  ∧ ∃ e1 r1 e2 r2,
      step compute_step check_some e (mkAction 0 0 2049 1) = Some (e1, r1)
      ∧ state e1 = [(2049, 1); (0, 0)]
      ∧ take 4 (obs r1) = [F16 2048; F16 1; F16 0; F16 0]
      ∧ step compute_step check_some e (mkAction 0 0 2048 1) = Some (e2, r2)
      ∧ state e2 = [(2048, 1); (0, 0)]
      ∧ take 4 (obs r2) = take 4 (obs r1).
Proof.
  intros e. split; [by vm_compute|]. split; [by vm_compute|].
  eexists _, _, _, _.
  split.
  { apply step_add_fresh; [done|by vm_compute|done|].
    intros H. apply list_elem_of_In in H. simpl in H.
    by destruct H as [H|[H|[]]]. }
  split; [done|]. split; [by vm_compute|].
  split.
  { apply step_add_fresh; [done|by vm_compute|done|].
    intros H. apply list_elem_of_In in H. simpl in H.
    by destruct H as [H|[H|[]]]. }
  split; [done|]. by vm_compute.
Qed.

(** ** The conversion of the road points, in floats *)

(** C9, as stated, fails: with [grid_size] 10^16 the bound of the
    coordinates is 9*10^16, and the two coordinates just below it are
    converted to the same float. *)
Lemma to_continuous_float64_merges_neighbours :
  ¬ conversion_strictly_increasing (init 1000 (10 ^ 16) 5 (-10)).
Proof.
  intros H.
  destruct (H (9 * 10 ^ 16) (9 * 10 ^ 16 - 2) (9 * 10 ^ 16 - 1))
    as (v1 & v2 & E1 & E2 & Hlt);
    [by vm_compute|by vm_compute|by vm_compute|by vm_compute|].
  vm_compute in E1, E2. injection E1 as <-. injection E2 as <-.
  by apply Qlt_irrefl in Hlt.
Qed.

(** C9, amended: for every grid size from 1 to 10^14,
    [get_road_points] converts each coordinate d of a cell it keeps with
    one function, computed in floats; the bound of the coordinates is
    9 * grid_size, and over the coordinates below it the float returned
    is (d + map_buffer_area_width) / discretization_precision up to a
    relative error of 2^-51, and the conversion is strictly increasing
    and injective. *)
Theorem get_road_points_float64_strictly_increasing e :
  wf e → 1 ≤ grid_size e ≤ 10 ^ 14 →
  get_road_points_float64 e
  = Some (map (λ p : Point, (to_continuous_float64 (grid_size e) p.1,
                             to_continuous_float64 (grid_size e) p.2))
              (filter (λ p : Point, p.1 ≠ 0 ∧ p.2 ≠ 0) (state e)))
  ∧ coordinate_bound_float64 (grid_size e) = Some (9 * grid_size e)
  ∧ (∀ d : Z,
       0 ≤ d < 9 * grid_size e →
       let r := ((inject_Z d + map_buffer_area_width e)
                 / discretization_precision)%Q in
       ∃ v, to_continuous_float64 (grid_size e) d = F64 v
            ∧ (r * (1 - (1 # 2251799813685248)) <= v)%Q
            ∧ (v <= r * (1 + (1 # 2251799813685248)))%Q)
  ∧ conversion_strictly_increasing e
  ∧ ∀ d1 d2 : Z,
      0 ≤ d1 < 9 * grid_size e → 0 ≤ d2 < 9 * grid_size e →
      to_continuous_float64 (grid_size e) d1
      = to_continuous_float64 (grid_size e) d2 →
      d1 = d2.
Proof.
  intros Hwf Hg.
  pose proof (coordinate_bound_float64_exact _ Hg) as Hb.
  split; [by apply get_road_points_float64_spec|]. split; [done|].
  split; [|split].
  - intros d Hd r.
    destruct (to_continuous_float64_val _ Hg d Hd) as (v & Hv & Hq).
    destruct (to_continuous_Q_close _ d Hg Hd) as [H1 H2].
    exists v. split; [done|]. rewrite Hq. by split.
  - intros b d1 d2 Hb' H1 H12 H2. rewrite Hb in Hb'. injection Hb' as <-.
    by apply to_continuous_float64_lt.
  - intros d1 d2 H1 H2 Heq. destruct (Z.eq_dec d1 d2) as [|Hne]; [done|].
    by destruct (to_continuous_float64_eqb_neq _ d1 d2 Hg H1 H2 Hne).
Qed.

Lemma get_road_points_float64_strictly_increasing_witness :
  let e := mkEnv 1000 200 3 (-10) [(3, 4); (0, 0); (1799, 1)] 2 in
  wf e
  ∧ 1 ≤ grid_size e ≤ 10 ^ 14
  ∧ get_road_points_float64 e
    = Some (map (λ p : Point, (to_continuous_float64 (grid_size e) p.1,
                               to_continuous_float64 (grid_size e) p.2))
                (filter (λ p : Point, p.1 ≠ 0 ∧ p.2 ≠ 0) (state e)))
  ∧ coordinate_bound_float64 (grid_size e) = Some (9 * grid_size e)
  ∧ (∀ d : Z,
       0 ≤ d < 9 * grid_size e →
       let r := ((inject_Z d + map_buffer_area_width e)
                 / discretization_precision)%Q in
       ∃ v, to_continuous_float64 (grid_size e) d = F64 v
            ∧ (r * (1 - (1 # 2251799813685248)) <= v)%Q
            ∧ (v <= r * (1 + (1 # 2251799813685248)))%Q)
  ∧ conversion_strictly_increasing e
  ∧ ∀ d1 d2 : Z,
      0 ≤ d1 < 9 * grid_size e → 0 ≤ d2 < 9 * grid_size e →
      to_continuous_float64 (grid_size e) d1
      = to_continuous_float64 (grid_size e) d2 →
      d1 = d2.
Proof.
  intros e.
  assert (Hg : 1 ≤ grid_size e ≤ 10 ^ 14) by (split; discriminate).
  split; [reflexivity|]. split; [exact Hg|].
  apply (get_road_points_float64_strictly_increasing e eq_refl Hg).
Defined.

(** ** Properties that depend on the bound of the coordinates *)

(** X1: for grid sizes from 1 to 10^14 the bound of the coordinates the
    constructor computes in floats is 9 * grid_size, and on a
    well-formed environment [step] returns a result exactly for the
    actions of the action space: operation 0 or 1, a position below
    [max_number_of_points] and coordinates from 0 to 9 * grid_size - 1;
    on every other action the assertion fails. *)
Theorem step_returns_iff_in_action_space
    (compute_step : Env → Q * Q) (check_some : Env → Z → bool) e a :
  wf e → 1 ≤ grid_size e ≤ 10 ^ 14 →
  ∃ b,
    coordinate_bound_float64 (grid_size e) = Some b
    ∧ b = 9 * grid_size e
    ∧ (is_Some (step compute_step check_some e a)
       ↔ (action_type a = ADD_UPDATE ∨ action_type a = REMOVE)
         ∧ 0 ≤ position a < Z.of_nat (max_number_of_points e)
         ∧ 0 ≤ x a < b
         ∧ 0 ≤ y a < b).
Proof.
  intros Hwf Hg. exists (9 * grid_size e).
  split; [by apply coordinate_bound_float64_exact|]. split; [done|].
  split.
  - intros Hsome.
    destruct (action_space_contains e a) eqn:Hc.
    + destruct (contains_bounds e a Hc) as (Ht & Hp & Hx & Hy).
      by rewrite discrete_extent in Hx, Hy.
    + rewrite step_out_of_bounds in Hsome by done.
      by destruct Hsome.
  - intros (Ht & Hp & Hx & Hy).
    pose proof (bounds_contains e a Ht Hp Hx Hy) as Hc.
    destruct (step_cases compute_step check_some e a Hwf Hc)
      as (st' & rw & oob & -> & _).
    by eexists.
Qed.

Lemma step_returns_iff_in_action_space_witness :
  let e := init 1000 200 5 (-10) in
  let a := mkAction 0 4 1799 0 in
  wf e
  ∧ 1 ≤ grid_size e ≤ 10 ^ 14
  ∧ ∃ b,
      coordinate_bound_float64 (grid_size e) = Some b
      ∧ b = 9 * grid_size e
      ∧ (is_Some (step mock_compute_step is_present e a)
         ↔ (action_type a = ADD_UPDATE ∨ action_type a = REMOVE)
           ∧ 0 ≤ position a < Z.of_nat (max_number_of_points e)
           ∧ 0 ≤ x a < b
           ∧ 0 ≤ y a < b).
Proof.
  intros e a.
  assert (Hg : 1 ≤ grid_size e ≤ 10 ^ 14) by (split; discriminate).
  split; [reflexivity|]. split; [exact Hg|].
  apply (step_returns_iff_in_action_space mock_compute_step is_present e a
           eq_refl Hg).
Defined.

(** X4: for grid sizes from 1 to 10^14, where the bound of the
    coordinates the constructor computes in floats is 9 * grid_size: if
    every cell is empty or holds coordinates from 0 to 9 * grid_size - 1,
    the same holds after every sequence of in-bounds [step] calls. *)
Theorem run_keeps_cells_in_bounds
    (compute_step : Env → Q * Q) (check_some : Env → Z → bool) e actions :
  wf e → 1 ≤ grid_size e ≤ 10 ^ 14 →
  (∀ p : Point, p ∈ state e →
     p = sentinel ∨ (0 ≤ p.1 < 9 * grid_size e ∧ 0 ≤ p.2 < 9 * grid_size e)) →
  Forall (λ a, action_space_contains e a = true) actions →
  ∃ e' rs b,
    run compute_step check_some e actions = Some (e', rs)
    ∧ coordinate_bound_float64 (grid_size e') = Some b
    ∧ ∀ p : Point, p ∈ state e' →
        p = sentinel ∨ (0 ≤ p.1 < b ∧ 0 ≤ p.2 < b).
Proof.
  intros Hwf Hg Hb Hall.
  destruct (run_preserves compute_step check_some
              (λ e', same_configuration e e' ∧ cells_in_bounds e'))
    with (actions := actions) (e := e)
    as (e' & rs & Hr & Hwf' & Hcfg & Hb'); try done.
  - intros e1 a e2 r Hwf1 Hc [Hcfg Hb1] Hs. split.
    + eapply same_configuration_trans; [exact Hcfg|].
      by eapply step_same_configuration.
    + by eapply step_cells_in_bounds.
  - exists e', rs, (9 * grid_size e'). split; [done|].
    destruct Hcfg as (_ & Hgs & _). split.
    + apply coordinate_bound_float64_exact. by rewrite Hgs.
    + intros p Hp. by apply Hb'.
Qed.

Lemma run_keeps_cells_in_bounds_witness :
  let e := init 7 200 3 (-10) in
  let actions := [mkAction 0 0 5 1799; mkAction 0 1 0 7] in
  wf e
  ∧ 1 ≤ grid_size e ≤ 10 ^ 14
  ∧ (∀ p : Point, p ∈ state e →
       p = sentinel
       ∨ (0 ≤ p.1 < 9 * grid_size e ∧ 0 ≤ p.2 < 9 * grid_size e))
  ∧ Forall (λ a, action_space_contains e a = true) actions
  ∧ ∃ e' rs b,
      run mock_compute_step is_present e actions = Some (e', rs)
      ∧ coordinate_bound_float64 (grid_size e') = Some b
      ∧ ∀ p : Point, p ∈ state e' →
          p = sentinel ∨ (0 ≤ p.1 < b ∧ 0 ≤ p.2 < b).
Proof.
  intros e actions.
  assert (Hg : 1 ≤ grid_size e ≤ 10 ^ 14) by (split; discriminate).
  assert (Hb : ∀ p : Point, p ∈ state e →
            p = sentinel
            ∨ (0 ≤ p.1 < 9 * grid_size e ∧ 0 ≤ p.2 < 9 * grid_size e)).
  { intros p Hp. left. by apply elem_of_replicate in Hp as [-> _]. }
  assert (Hall : Forall (λ a, action_space_contains e a = true) actions).
  { repeat constructor. }
  split; [reflexivity|]. split; [exact Hg|]. split; [exact Hb|].
  split; [exact Hall|].
  apply (run_keeps_cells_in_bounds mock_compute_step is_present e actions
           eq_refl Hg Hb Hall).
Defined.

(** X14: for grid sizes from 1 to 10^14, when every cell is empty or
    holds coordinates of the action space and no two cells that differ
    from the sentinel hold the same pair, the points [get_road_points]
    returns, as the floats the code computes, are pairwise different:
    any two of them differ, as numbers, in a coordinate. *)
Theorem road_points_are_pairwise_distinct e :
  wf e → 1 ≤ grid_size e ≤ 10 ^ 14 →
  (∀ p : Point, p ∈ state e →
     p = sentinel ∨ (0 ≤ p.1 < 9 * grid_size e ∧ 0 ≤ p.2 < 9 * grid_size e)) →
  (∀ (i j : nat) (p : Point),
     i ≠ j → state e !! i = Some p → state e !! j = Some p → p = sentinel) →
  ∃ pts,
    get_road_points_float64 e = Some pts
    ∧ ∀ (i j : nat) (p q : float64 * float64),
        i ≠ j → pts !! i = Some p → pts !! j = Some q →
        float64_eqb p.1 q.1 && float64_eqb p.2 q.2 = false.
Proof.
  intros Hwf Hg Hb Hu. eexists.
  split; [by apply get_road_points_float64_spec|].
  intros i j p q Hij Hp Hq.
  apply lookup_map_Some in Hp as (ci & Hci & ->).
  apply lookup_map_Some in Hq as (cj & Hcj & ->).
  pose proof (NoDup_cells_without_zero (state e) Hu) as Hnd.
  assert (Hne : ci ≠ cj).
  { intros ->. apply Hij. by apply (NoDup_lookup _ i j cj Hnd). }
  assert (Hin : ∀ c k,
            filter (λ p : Point, p.1 ≠ 0 ∧ p.2 ≠ 0) (state e) !! k = Some c →
            0 ≤ c.1 < 9 * grid_size e ∧ 0 ≤ c.2 < 9 * grid_size e).
  { intros c k Hk.
    assert (Hc : c ∈ filter (λ p : Point, p.1 ≠ 0 ∧ p.2 ≠ 0) (state e)).
    { apply list_elem_of_lookup. by exists k. }
    apply list_elem_of_filter in Hc as [[Hc1 _] Hc].
    destruct (Hb c Hc) as [->|Hr]; [done|done]. }
  destruct (Hin ci i Hci) as [Hi1 Hi2].
  destruct (Hin cj j Hcj) as [Hj1 Hj2].
  cbn [fst snd].
  destruct (Z.eq_dec ci.1 cj.1) as [E1|E1].
  - assert (E2 : ci.2 ≠ cj.2).
    { intros E2. apply Hne. destruct ci, cj; simpl in *. by subst. }
    destruct (to_continuous_float64_eqb_neq _ _ _ Hg Hi2 Hj2 E2) as [-> _].
    apply andb_false_r.
  - by destruct (to_continuous_float64_eqb_neq _ _ _ Hg Hi1 Hj1 E1)
      as [-> _].
Qed.

Lemma road_points_are_pairwise_distinct_witness :
  let e := mkEnv 1000 200 2 (-10) [(3, 4); (4, 3)] 2 in
  wf e
  ∧ 1 ≤ grid_size e ≤ 10 ^ 14
  ∧ (∀ p : Point, p ∈ state e →
       p = sentinel
       ∨ (0 ≤ p.1 < 9 * grid_size e ∧ 0 ≤ p.2 < 9 * grid_size e))
  ∧ (∀ (i j : nat) (p : Point),
       i ≠ j → state e !! i = Some p → state e !! j = Some p → p = sentinel)
  ∧ ∃ pts,
      get_road_points_float64 e = Some pts
      ∧ ∀ (i j : nat) (p q : float64 * float64),
          i ≠ j → pts !! i = Some p → pts !! j = Some q →
          float64_eqb p.1 q.1 && float64_eqb p.2 q.2 = false.
Proof.
  intros e.
  assert (Hg : 1 ≤ grid_size e ≤ 10 ^ 14) by (split; discriminate).
  assert (Hb : ∀ p : Point, p ∈ state e →
            p = sentinel
            ∨ (0 ≤ p.1 < 9 * grid_size e ∧ 0 ≤ p.2 < 9 * grid_size e)).
  { intros p Hp. apply list_elem_of_In in Hp. simpl in Hp.
    destruct Hp as [<-|[<-|[]]]; right; simpl; lia. }
  assert (Hu : ∀ (i j : nat) (p : Point),
            i ≠ j → state e !! i = Some p → state e !! j = Some p →
            p = sentinel).
  { intros [|[|i]] [|[|j]] p Hij Hi Hj; simpl in Hi, Hj;
      try discriminate; try (by destruct Hij);
      injection Hi as <-; discriminate Hj. }
  split; [reflexivity|]. split; [exact Hg|]. split; [exact Hb|].
  split; [exact Hu|].
  apply (road_points_are_pairwise_distinct e eq_refl Hg Hb Hu).
Defined.

(** X16: for grid sizes from 1 to 10^14 the bound of the coordinates the
    constructor computes in floats is exactly 9 * grid_size; it bounds
    each of the 2 * max_number_of_points coordinate entries of the
    observation space and both coordinates of the action space, and the
    last entry of the observation space is bounded by 1000. *)
Theorem observation_space_bounds e :
  1 ≤ grid_size e ≤ 10 ^ 14 →
  ∃ b,
    coordinate_bound_float64 (grid_size e) = Some b
    ∧ b = 9 * grid_size e
    ∧ observation_nvec e
      = replicate (2 * max_number_of_points e) b ++ [1000]
    ∧ action_nvec e = (2, Z.of_nat (max_number_of_points e), b, b).
Proof.
  intros Hg. exists (9 * grid_size e).
  split; [by apply coordinate_bound_float64_exact|]. split; [done|].
  unfold observation_nvec, action_nvec. by rewrite discrete_extent.
Qed.

Lemma observation_space_bounds_witness :
  let e := init 1000 200 5 (-10) in
  1 ≤ grid_size e ≤ 10 ^ 14
  ∧ ∃ b,
      coordinate_bound_float64 (grid_size e) = Some b
      ∧ b = 9 * grid_size e
      ∧ observation_nvec e
        = replicate (2 * max_number_of_points e) b ++ [1000]
      ∧ action_nvec e = (2, Z.of_nat (max_number_of_points e), b, b).
Proof.
  intros e.
  assert (Hg : 1 ≤ grid_size e ≤ 10 ^ 14) by (split; discriminate).
  split; [exact Hg|].
  apply (observation_space_bounds e Hg).
Defined.
